(** * The Need for Speed: Gaussian elimination and its speed test

    A shallow embedding of [AdvancedPython/TheNeedForSpeed.ipynb]:

    - [gaussSimple], the Python solver skeleton (input checks, defensive
      copies, residual assertion), over a store of Python objects;
    - [gauss], the C++ elimination routine of [gauss.cpp], over binary64;
    - [randProb] and [speed], the instance generator and the timing loop of
      [gausstest.py], over a world made of the global random generator, the
      garbage collector switch, the clock and a trace of what happened.

    Python dictionaries keyed by index pairs are [gmap (Z * Z)], Python
    lists are [list], Python and C++ doubles are Rocq's primitive binary64
    floats. *)

From Stdlib Require Import ZArith List Floats Uint63 String.
From Equations Require Import Equations.
From stdpp Require Import gmap list.

Local Open Scope Z_scope.

(** ** Numbers

    [gaussSimple] only adds, subtracts, multiplies, takes absolute values
    and compares, so it runs on whatever numbers the dictionary holds.  The
    class lists exactly the operations the function applies. *)

Class PyNum (F : Type) := {
  zero : F;                     (* the integer 0 that [sum] starts from *)
  add : F -> F -> F;
  sub : F -> F -> F;
  mul : F -> F -> F;
  pyabs : F -> F;
  gt : F -> F -> bool;          (* [a > b], the test [max] applies *)
  lt_tol : F -> bool            (* [e < 1e-5] *)
}.

(** The double nearest to the literal [1e-5]. *)
Definition tol : float := 0x1.4f8b588e368f1p-17%float.

#[export] Instance float_num : PyNum float := {
  zero := 0%float;
  add := PrimFloat.add;
  sub := PrimFloat.sub;
  mul := PrimFloat.mul;
  pyabs := PrimFloat.abs;
  gt := fun a b => PrimFloat.ltb b a;
  lt_tol := fun e => PrimFloat.ltb e tol
}.

(** Python integers: exact, and [e < 1e-5] holds of an integer exactly when
    it is below one. *)
#[export] Instance int_num : PyNum Z := {
  zero := 0;
  add := Z.add;
  sub := Z.sub;
  mul := Z.mul;
  pyabs := Z.abs;
  gt := Z.gtb;
  lt_tol := fun e => e <? 1
}.

(** What a bound on a maximum needs of the order.  [unordered r] says that
    [r] compares false with every number, as a NaN does; no integer is
    unordered. *)
Class NanOrder (F : Type) `{PyNum F} := {
  unordered : F -> bool;
  gt_ordered : forall r m : F, gt r m = true -> unordered r = false;
  gt_below : forall r m : F, gt r m = true -> lt_tol r = true -> lt_tol m = true;
  le_below : forall r m : F,
    gt r m = false -> lt_tol m = true -> lt_tol r = true \/ unordered r = true
}.

(** ** Exceptions *)

Inductive assert_msg (F : Type) :=
| NoMessage
| WrongSize                     (* "Matrix A has wrong size" *)
| SparseMatrix                  (* "Cannot handle sparse matrix A" *)
| IncorrectSolution (error : F) (* f"Incorrect solution: out by {error}" *).
Arguments NoMessage {F}.
Arguments WrongSize {F}.
Arguments SparseMatrix {F}.
Arguments IncorrectSolution {F} error.

Inductive exn (F : Type) :=
| AssertionError (msg : assert_msg F)
| KeyError (key : Z * Z)
| IndexError
| TypeError
| ValueError                    (* [max] of an empty sequence *)
| OtherError (name : string).
Arguments AssertionError {F} msg.
Arguments KeyError {F} key.
Arguments IndexError {F}.
Arguments TypeError {F}.
Arguments ValueError {F}.
Arguments OtherError {F} name.

(** ** Computations that may raise *)

Definition ofind {E A} (e : E) (o : option A) : E + A :=
  match o with
  | Some a => inr a
  | None => inl e
  end.

(** ** Python built-ins used by the solver *)

(** [range(n)] *)
Definition range (n : Z) : list Z := seqZ 0 n.

(** [l[j]], with Python's negative indices. *)
Definition py_index {A} (l : list A) (j : Z) : option A :=
  if 0 <=? j then l !! Z.to_nat j
  else if - Z.of_nat (length l) <=? j then l !! Z.to_nat (Z.of_nat (length l) + j)
  else None.

(** [sum(...)]: starts from 0 and adds from the left. *)
Definition pysum {F} `{PyNum F} (l : list F) : F := fold_left add l zero.

(** [max(...)]: keeps the first item and replaces it by every later item that
    compares greater; raises [ValueError] on an empty sequence. *)
Definition pymax {F} `{PyNum F} (l : list F) : exn F + F :=
  match l with
  | [] => inl ValueError
  | r :: l' => inr (fold_left (fun m r' => if gt r' m then r' else m) l' r)
  end.

(** [(i, j) for i in N for j in N] *)
Definition index_pairs (N : list Z) : list (Z * Z) :=
  i ← N; j ← N; [(i, j)].

(** ** The store of Python objects

    The caller's matrix and vector are objects in a store, passed by
    reference; a function that wrote through its arguments would change what
    the caller sees.  Computations thread the store and may raise. *)

Definition loc := positive.

Inductive obj (F : Type) :=
| PyDict (d : gmap (Z * Z) F)
| PyList (l : list F).
Arguments PyDict {F} d.
Arguments PyList {F} l.

(** A computation over a state [S] that returns or raises; the state
    survives an exception. *)
Definition M (S E A : Type) : Type := S -> (E + A) * S.

Definition ret {S E A} (a : A) : M S E A := fun s => (inr a, s).

Definition raise {S E A} (e : E) : M S E A := fun s => (inl e, s).

Definition bind {S E A B} (m : M S E A) (k : A -> M S E B) : M S E B :=
  fun s =>
    match m s with
    | (inl e, s') => (inl e, s')
    | (inr a, s') => k a s'
    end.

Notation "'do' x <- m ; k" := (bind m (fun x => k))
  (at level 10, x name, m at level 100, k at level 200).
Notation "'do_' m ; k" := (bind m (fun _ => k))
  (at level 10, m at level 100, k at level 200).

Fixpoint mapM {S E A B} (f : A -> M S E B) (l : list A) : M S E (list B) :=
  match l with
  | [] => ret []
  | a :: l' => do y <- f a; do ys <- mapM f l'; ret (y :: ys)
  end.

(** Lift a pure computation that may raise. *)
Definition lift {S E A} (r : E + A) : M S E A := fun s => (r, s).

Definition Py (F A : Type) : Type := M (gmap loc (obj F)) (exn F) A.

(** [assert c, msg] *)
Definition py_assert {F} (c : bool) (msg : assert_msg F) : Py F unit :=
  if c then ret tt else raise (AssertionError msg).

(** A new object, at an address the store does not use yet. *)
Definition alloc {F} (o : obj F) : Py F loc :=
  fun h => let l := fresh (dom h) in (inr l, <[l := o]> h).

Definition get_list {F} (l : loc) : Py F (list F) :=
  fun h =>
    match h !! l with
    | Some (PyList xs) => (inr xs, h)
    | _ => (inl TypeError, h)
    end.

Definition get_dict {F} (l : loc) : Py F (gmap (Z * Z) F) :=
  fun h =>
    match h !! l with
    | Some (PyDict d) => (inr d, h)
    | _ => (inl TypeError, h)
    end.

(** [len(b)] *)
Definition list_len {F} (b : loc) : Py F Z :=
  do xs <- get_list b; ret (Z.of_nat (length xs)).

(** [len(A)] *)
Definition dict_len {F} (a : loc) : Py F Z :=
  do d <- get_dict a; ret (Z.of_nat (size d)).

(** [(i, j) in A] *)
Definition dict_contains {F} (a : loc) (k : Z * Z) : Py F bool :=
  do d <- get_dict a; ret (bool_decide (is_Some (d !! k))).

(** [A[i, j]] *)
Definition dict_getitem {F} (a : loc) (k : Z * Z) : Py F F :=
  do d <- get_dict a; lift (ofind (KeyError k) (d !! k)).

(** [x[j]] *)
Definition list_getitem {F} (x : loc) (j : Z) : Py F F :=
  do xs <- get_list x; lift (ofind IndexError (py_index xs j)).

(** [dict(A.items())] *)
Definition dict_copy {F} (a : loc) : Py F loc :=
  do d <- get_dict a; alloc (PyDict d).

(** [b[:]] *)
Definition list_copy {F} (b : loc) : Py F loc :=
  do xs <- get_list b; alloc (PyList xs).

(** [all(c(k) for k in ks)]: stops at the first false item. *)
Fixpoint py_all {F A} (c : A -> Py F bool) (ks : list A) : Py F bool :=
  match ks with
  | [] => ret true
  | k :: ks' => do v <- c k; if v then py_all c ks' else ret false
  end.

(** ** [gaussSimple] *)

Section GaussSimple.
Context {F : Type} `{PyNum F}.

(** [abs(sum(A[i,j]*x[j] for j in N) - b[i])] *)
Definition row_error (a x b : loc) (N : list Z) (i : Z) : Py F F :=
  do terms <- mapM (fun j =>
                do aij <- dict_getitem a (i, j);
                do xj <- list_getitem x j;
                ret (mul aij xj)) N;
  do bi <- list_getitem b i;
  ret (pyabs (sub (pysum terms) bi)).

Definition gaussSimple (a b : loc) : Py F loc :=
  do n <- list_len b;
  let N := range n in
  do len_a <- dict_len a;
  do_ py_assert (len_a =? n * n) WrongSize;
  do all_present <- py_all (dict_contains a) (index_pairs N);
  do_ py_assert all_present SparseMatrix;
  do u <- dict_copy a;
  do x <- list_copy b;
  (* the elimination and the back-substitution are left to the reader *)
  do errors <- mapM (row_error a x b N) N;
  do error <- lift (pymax errors);
  do_ py_assert (lt_tol error) (IncorrectSolution error);
  ret x.

End GaussSimple.

(** ** [gauss], the C++ routine of [gauss.cpp]

    [A] and [b] are read through pointers to [const]; [x] is the caller's
    buffer, taken to be distinct from them, and [U] is a local vector.  An
    array is a list, written with stdpp's insert; the routine only indexes
    below the sizes it allocated, and reads outside a list (undefined in
    C++) are given the value 0 here. *)

Module Cpp.

Definition vget (v : list float) (i : nat) : float := nth i v 0%float.

Definition mget (M : list (list float)) (i j : nat) : float :=
  vget (nth i M []) j.

Definition mset (M : list (list float)) (i j : nat) (v : float) : list (list float) :=
  <[i := <[j := v]> (nth i M [])]> M.

(** [for(int i=lo; i<hi; ++i)] *)
Definition for_loop {S} (lo hi : nat) (body : S -> nat -> S) (s : S) : S :=
  fold_left body (seq lo (hi - lo)) s.

(** [for(int i=hi-1; i>=0; --i)] *)
Definition for_down {S} (hi : nat) (body : S -> nat -> S) (s : S) : S :=
  fold_left body (reverse (seq 0 hi)) s.

(** Copy the input data into [U], one row of [n+1] entries per equation. *)
Definition copy_input (n : nat) (A : list (list float)) (b : list float)
  : list (list float) :=
  for_loop 0 n (fun U i =>
    let U := <[i := replicate (n + 1) 0%float]> U in
    let U := for_loop 0 n (fun U j => mset U i j (mget A i j)) U in
    mset U i n (vget b i))
    (replicate n []).

(** The body of the row reduction for the pivot row [i]: no test on the
    pivot [U[i][i]]. *)
Definition eliminate (n : nat) (U : list (list float)) (i : nat) : list (list float) :=
  for_loop (i + 1) n (fun U j =>
    let mult := PrimFloat.div (mget U j i) (mget U i i) in
    let U := mset U j i 0%float in
    for_loop (i + 1) (n + 1) (fun U k =>
      mset U j k (PrimFloat.sub (mget U j k) (PrimFloat.mul mult (mget U i k)))) U) U.

Definition row_reduction (n : nat) (U : list (list float)) : list (list float) :=
  for_loop 0 n (eliminate n) U.

(** The body of the back-substitution loop, for row [i]. *)
Definition solve_row (n : nat) (U : list (list float)) (x : list float) (i : nat)
  : list float :=
  let x := <[i := mget U i n]> x in
  let x := for_loop (i + 1) n (fun x j =>
             <[i := PrimFloat.sub (vget x i) (PrimFloat.mul (mget U i j) (vget x j))]> x) x in
  <[i := PrimFloat.div (vget x i) (mget U i i)]> x.

Definition back_substitution (n : nat) (U : list (list float)) (x : list float)
  : list float :=
  for_down n (solve_row n U) x.

(** The largest [fabs(sum)] over the rows, starting from 0. *)
Definition max_error (n : nat) (A : list (list float)) (b x : list float) : float :=
  for_loop 0 n (fun error i =>
    let sum := PrimFloat.opp (vget b i) in
    let sum := for_loop 0 n (fun sum j =>
                 PrimFloat.add sum (PrimFloat.mul (mget A i j) (vget x j))) sum in
    if PrimFloat.ltb error (PrimFloat.abs sum) then PrimFloat.abs sum else error)
    0%float.

(** Returns the buffer [x] as the routine leaves it, and the routine's
    return value. *)
Definition gauss (n : nat) (A : list (list float)) (b x : list float)
  : list float * float :=
  let U := copy_input n A b in
  let U := row_reduction n U in
  let x := back_substitution n U x in
  (x, max_error n A b x).

(** The augmented matrix after the row reduction. *)
Definition reduced (n : nat) (A : list (list float)) (b : list float)
  : list (list float) :=
  row_reduction n (copy_input n A b).

(** The pivot the elimination meets at row [i]: the entry [U[i][i]] when the
    rows before [i] have been used. *)
Definition pivot (n : nat) (A : list (list float)) (b : list float) (i : nat) : float :=
  mget (for_loop 0 i (eliminate n) (copy_input n A b)) i i.

(** [f == 0] *)
Definition is_zero (f : float) : bool := PrimFloat.eqb f 0%float.

(** Neither an infinity nor a NaN. *)
Definition finite (f : float) : bool :=
  match Prim2SF f with
  | S754_zero _ | S754_finite _ _ _ => true
  | S754_infinity _ | S754_nan => false
  end.

End Cpp.


(** ** The speed test of [gausstest.py]

    What the module takes from its environment is a parameter here: the
    state of Python's global random generator with [seed] and [random], the
    readings of [time.process_time], [mean] and [stdev] of [statistics], and
    the solver under test.  The solver is a function of the instance it is
    handed: it returns or raises, and leaves the generator, the collector and
    the trace alone. *)

Abbreviation matrix := (gmap (Z * Z) float).

(** What an observer of a run sees, in the order it happens. *)
Inductive event :=
| EvSeed (a : Z)
| EvGcDisable
| EvGcEnable
| EvGcCollect
| EvSetup (n : Z) (A : matrix) (b : list float)    (* [A,b = randP(n)] done *)
| EvTimer (t : float)                              (* the timer was read *)
| EvCall (A : matrix) (b : list float) (gc : bool) (* [method(A,b)], and whether
                                                      collection was enabled *)
| EvPrint (n : Z) (mean stdev : float) (ratio : option float).

Section Harness.
Variable rng : Type.
Variable seed_state : Z -> rng.
Variable next_random : rng -> float * rng.
Variable process_time : nat -> float.
Variables mean stdev : list float -> float.
Variable R : Type.

Record world := World {
  w_rng : rng;          (* the global generator of [random] *)
  w_gc : bool;          (* is automatic collection enabled? *)
  w_clock : nat;        (* how many times the timer was read *)
  w_trace : list event
}.

Definition H (A : Type) : Type := M world (exn float) A.

Definition log (e : event) : H unit :=
  fun w => (inr tt, World (w_rng w) (w_gc w) (w_clock w) (w_trace w ++ [e])).

(** [random.seed(a)] *)
Definition seed (a : Z) : H unit :=
  do_ log (EvSeed a);
  fun w => (inr tt, World (seed_state a) (w_gc w) (w_clock w) (w_trace w)).

(** [random.random()] *)
Definition random : H float :=
  fun w => let (v, g) := next_random (w_rng w) in
           (inr v, World g (w_gc w) (w_clock w) (w_trace w)).

Definition set_rng (g : rng) (w : world) : world :=
  World g (w_gc w) (w_clock w) (w_trace w).

Definition gc_isenabled : H bool := fun w => (inr (w_gc w), w).

Definition gc_set (on : bool) : H unit :=
  fun w => (inr tt, World (w_rng w) on (w_clock w) (w_trace w)).

Definition gc_disable : H unit := do_ log EvGcDisable; gc_set false.

Definition gc_enable : H unit := do_ log EvGcEnable; gc_set true.

Definition gc_collect : H unit := log EvGcCollect.

(** [time.process_time()] *)
Definition timer : H float :=
  do t <- (fun w => (inr (process_time (w_clock w)),
                     World (w_rng w) (w_gc w) (S (w_clock w)) (w_trace w)));
  do_ log (EvTimer t);
  ret t.

(** [dict(...)] of a sequence of pairs: a later pair replaces an earlier
    one with the same key. *)
Definition py_dict (entries : list ((Z * Z) * float)) : matrix :=
  fold_left (fun d kv => <[kv.1 := kv.2]> d) entries ∅.

(** [k] successive values of the generator, and its state after them. *)
Fixpoint draw (k : nat) (g : rng) : list float * rng :=
  match k with
  | O => ([], g)
  | S k' => let (v, g1) := next_random g in
            let (vs, g2) := draw k' g1 in
            (v :: vs, g2)
  end.

Definition randProb (n : Z) : H (matrix * list float) :=
  (* n = int(n) *)
  do_ (if 0 <? n then ret tt else raise (AssertionError NoMessage));
  let N := range n in
  do entries <- mapM (fun k => do v <- random; ret (k, v)) (index_pairs N);
  do b <- mapM (fun _ => random) N;
  ret (py_dict entries, b).

(** The instance [randProb n] returns when the generator is in state [g],
    and the state it leaves: [n * n] values for the matrix in row-major
    order, then [n] for the vector. *)
Definition generate (n : Z) (g : rng) : (matrix * list float) * rng :=
  let N := range n in
  let (vs, g1) := draw (length (index_pairs N)) g in
  let (b, g2) := draw (length N) g1 in
  ((py_dict (zip (index_pairs N) vs), b), g2).

(** *** [timeit]

    [timeit.repeat(stmt, setup, timer, repeat, number=1, globals)] of the
    Python library, as its documentation and source describe it: each of
    the [repeat] rounds switches collection off, runs [setup], reads the
    timer, runs [stmt] once, reads the timer again, and switches
    collection back on if it was on before the round. *)

Definition try_finally {A} (body : H A) (final : H unit) : H A :=
  fun w =>
    match body w with
    | (r, w') =>
        match final w' with
        | (inl e, w'') => (inl e, w'')
        | (inr _, w'') => (r, w'')
        end
    end.

Definition timeit_timeit {X} (setup : H X) (stmt : X -> H unit) : H float :=
  do gcold <- gc_isenabled;
  do_ gc_disable;
  try_finally
    (do env <- setup;
     do t0 <- timer;
     do_ stmt env;
     do t1 <- timer;
     ret (PrimFloat.sub t1 t0))
    (if gcold then gc_enable else ret tt).

Fixpoint timeit_repeat {X} (repeat : nat) (setup : H X) (stmt : X -> H unit)
  : H (list float) :=
  match repeat with
  | O => ret []
  | S r => do t <- timeit_timeit setup stmt;
           do ts <- timeit_repeat r setup stmt;
           ret (t :: ts)
  end.

(** *** [speed] *)

Variable method : matrix -> list float -> exn float + R.

(** [setup=f"A,b=randP({n})"] *)
Definition setup (n : Z) : H (matrix * list float) :=
  do Ab <- randProb n;
  do_ log (EvSetup n Ab.1 Ab.2);
  ret Ab.

(** [stmt="method(A,b)"]; the value is dropped. *)
Definition stmt (Ab : matrix * list float) : H unit :=
  do gc <- gc_isenabled;
  do_ log (EvCall Ab.1 Ab.2 gc);
  do_ lift (method Ab.1 Ab.2);
  ret tt.

(** The body of [while n <= maxSize], for the current [prev] and [n];
    returns the new [prev]. *)
Definition speed_body (prev : float) (n : Z) : H float :=
  do_ gc_collect;
  do t <- timeit_repeat 5 (setup n) stmt;
  do_ log (EvPrint n (mean t) (stdev t)
             (if PrimFloat.ltb 0 prev then Some (PrimFloat.div (mean t) prev) else None));
  ret (mean t).

(** The loop.  [n] starts at 50 and is doubled, so it is a positive
    number, and the distance to [maxSize] shrinks. *)
Equations? speed_loop (maxSize : Z) (prev : float) (n : positive) : H unit
  by wf (Z.to_nat (maxSize + 1 - Z.pos n)) lt :=
  speed_loop maxSize prev n with Z_le_dec (Z.pos n) maxSize := {
    | left _ => do prev' <- speed_body prev (Z.pos n);
                speed_loop maxSize prev' (2 * n)%positive
    | right _ => ret tt }.
Proof. lia. Qed.

Definition speed (maxSize : Z) : H unit :=
  do_ seed 123456;
  do_ gc_disable;
  do_ speed_loop maxSize 0%float 50%positive;
  gc_enable.

End Harness.

Arguments World {rng} w_rng w_gc w_clock w_trace.
Arguments w_rng {rng} w.
Arguments w_gc {rng} w.
Arguments w_clock {rng} w.
Arguments w_trace {rng} w.
Arguments log {rng} e.
Arguments seed {rng} seed_state a.
Arguments random {rng} next_random.
Arguments set_rng {rng} g w.
Arguments gc_isenabled {rng}.
Arguments gc_set {rng} on.
Arguments gc_disable {rng}.
Arguments gc_enable {rng}.
Arguments gc_collect {rng}.
Arguments timer {rng} process_time.
Arguments draw {rng} next_random k g.
Arguments randProb {rng} next_random n.
Arguments generate {rng} next_random n g.
Arguments try_finally {rng A} body final.
Arguments timeit_timeit {rng} process_time {X} setup stmt.
Arguments timeit_repeat {rng} process_time {X} repeat setup stmt.
Arguments setup {rng} next_random n.
Arguments stmt {rng R} method Ab.
Arguments speed_body {rng} next_random process_time mean stdev {R} method prev n.
Arguments speed_loop {rng} next_random process_time mean stdev {R} method maxSize prev n.
Arguments speed {rng} seed_state next_random process_time mean stdev {R} method maxSize.

(** ** The shape of a run of [speed]

    A run is a sequence of size blocks; a block is a collection, five
    rounds of [timeit] and a printed line; a round switches collection off,
    sets an instance up, and calls the solver between two readings of the
    timer.  A run that fails ends inside a round, at the call that raised. *)

Section Shape.
Context {rng R : Type}.
Variable next_random : rng -> float * rng.
Variables mean stdev : list float -> float.
Variable method : matrix -> list float -> exn float + R.

Definition returns (A : matrix) (b : list float) : Prop :=
  exists r, method A b = inr r.

(** The printed ratio: present exactly when [prev > 0]. *)
Definition ratio (prev m : float) : option float :=
  if PrimFloat.ltb 0 prev then Some (PrimFloat.div m prev) else None.

Definition round_events (n : Z) (Ab : matrix * list float) (t0 t1 : float)
  : list event :=
  [EvGcDisable; EvSetup n Ab.1 Ab.2; EvTimer t0; EvCall Ab.1 Ab.2 false; EvTimer t1].

Definition failed_round_events (n : Z) (Ab : matrix * list float) (t0 : float)
  : list event :=
  [EvGcDisable; EvSetup n Ab.1 Ab.2; EvTimer t0; EvCall Ab.1 Ab.2 false].

(** [rounds n k g evs ds g']: [k] complete rounds from the generator state
    [g], each on the instance generated at its start, with the events [evs]
    and the durations [ds]. *)
Inductive rounds (n : Z) : nat -> rng -> list event -> list float -> rng -> Prop :=
| rounds_nil g : rounds n 0 g [] [] g
| rounds_cons k g t0 t1 evs ds g' :
    returns (generate next_random n g).1.1 (generate next_random n g).1.2 ->
    rounds n k (generate next_random n g).2 evs ds g' ->
    rounds n (S k) g
      (round_events n (generate next_random n g).1 t0 t1 ++ evs)
      (PrimFloat.sub t1 t0 :: ds) g'.

Inductive block (prev : float) (n : Z) (g : rng)
  : list event -> float -> rng -> Prop :=
| block_intro evs ds g' :
    rounds n 5 g evs ds g' ->
    block prev n g
      (EvGcCollect :: evs ++ [EvPrint n (mean ds) (stdev ds) (ratio prev (mean ds))])
      (mean ds) g'.

Inductive failed_block (n : Z) (g : rng) : list event -> exn float -> Prop :=
| failed_block_intro k evs ds g' t0 e :
    (k < 5)%nat ->
    rounds n k g evs ds g' ->
    method (generate next_random n g').1.1 (generate next_random n g').1.2 = inl e ->
    failed_block n g
      (EvGcCollect :: evs ++ failed_round_events n (generate next_random n g').1 t0) e.

Inductive sweep (maxSize : Z) : float -> positive -> rng -> list event -> Prop :=
| sweep_done prev n g :
    maxSize < Z.pos n -> sweep maxSize prev n g []
| sweep_step prev n g evs m g' rest :
    Z.pos n <= maxSize ->
    block prev (Z.pos n) g evs m g' ->
    sweep maxSize m (2 * n)%positive g' rest ->
    sweep maxSize prev n g (evs ++ rest).

Inductive failed_sweep (maxSize : Z)
  : float -> positive -> rng -> list event -> exn float -> Prop :=
| failed_here prev n g evs e :
    Z.pos n <= maxSize ->
    failed_block (Z.pos n) g evs e ->
    failed_sweep maxSize prev n g evs e
| failed_later prev n g evs m g' rest e :
    Z.pos n <= maxSize ->
    block prev (Z.pos n) g evs m g' ->
    failed_sweep maxSize m (2 * n)%positive g' rest e ->
    failed_sweep maxSize prev n g (evs ++ rest) e.

End Shape.

(** Views of a trace. *)

(** The printed lines: size, mean and ratio. *)
Definition printed (evs : list event) : list (Z * float * option float) :=
  omap (fun e => match e with
                 | EvPrint n m _ r => Some (n, m, r)
                 | _ => None
                 end) evs.

(** The instances handed to the solver. *)
Definition calls (evs : list event) : list (matrix * list float) :=
  omap (fun e => match e with
                 | EvCall A b _ => Some (A, b)
                 | _ => None
                 end) evs.

(** The rounds, without the instances they ran on. *)
Inductive step := StDisable | StEnable | StCollect | StSetup (n : Z) | StTimer
                | StCall (gc : bool) | StPrint (n : Z).

Definition step_of (e : event) : option step :=
  match e with
  | EvSeed _ => None
  | EvGcDisable => Some StDisable
  | EvGcEnable => Some StEnable
  | EvGcCollect => Some StCollect
  | EvSetup n _ _ => Some (StSetup n)
  | EvTimer _ => Some StTimer
  | EvCall _ _ gc => Some (StCall gc)
  | EvPrint n _ _ _ => Some (StPrint n)
  end.

Definition steps (evs : list event) : list step := omap step_of evs.

(** Each printed ratio is the line's mean over the previous line's mean, and
    is left out when that mean is not positive. *)
Fixpoint ratios_from (prev : float) (ps : list (Z * float * option float)) : Prop :=
  match ps with
  | [] => True
  | (_, m, r) :: ps' =>
      r = (if PrimFloat.ltb 0 prev then Some (PrimFloat.div m prev) else None) /\
      ratios_from m ps'
  end.

(** The sizes [n * 2^k] for [k < count], from a first size [n]. *)
Definition sizes_from (n : positive) (count : nat) : list Z :=
  map (fun k => Z.pos n * 2 ^ Z.of_nat k) (seq 0 count).

(** How many sizes of the series 50, 100, 200, ... are at most [maxSize]. *)
Definition block_count (maxSize : Z) : nat :=
  if maxSize <? 50 then 0%nat else S (Z.to_nat (Z.log2 (maxSize / 50))).

Definition round_steps (n : Z) : list step :=
  [StDisable; StSetup n; StTimer; StCall false; StTimer].

Definition block_steps (n : Z) : list step :=
  StCollect :: concat (replicate 5 (round_steps n)) ++ [StPrint n].

(** The rounds with their instances: what was set up, and what the solver
    was called on between the two readings of the timer. *)
Inductive trial_step :=
| TrSetup (n : Z) (A : matrix) (b : list float)
| TrTimer
| TrCall (A : matrix) (b : list float).

Definition trial_of (e : event) : option trial_step :=
  match e with
  | EvSetup n A b => Some (TrSetup n A b)
  | EvTimer _ => Some TrTimer
  | EvCall A b _ => Some (TrCall A b)
  | _ => None
  end.

Definition trials (evs : list event) : list trial_step := omap trial_of evs.

Definition trial_steps (i : Z * (matrix * list float)) : list trial_step :=
  [TrSetup i.1 i.2.1 i.2.2; TrTimer; TrCall i.2.1 i.2.2; TrTimer].

Section Instances.
Context {rng : Type} (next_random : rng -> float * rng).

(** [k] instances of size [n] generated one after the other. *)
Fixpoint instances (n : Z) (k : nat) (g : rng) : list (matrix * list float) * rng :=
  match k with
  | O => ([], g)
  | S k' => let rest := instances n k' (generate next_random n g).2 in
            ((generate next_random n g).1 :: rest.1, rest.2)
  end.

(** Five instances for each of [count] sizes, doubling from [n]. *)
Fixpoint sweep_instances (count : nat) (n : positive) (g : rng)
  : list (Z * (matrix * list float)) :=
  match count with
  | O => []
  | S c => (pair (Z.pos n) <$> (instances (Z.pos n) 5 g).1)
           ++ sweep_instances c (2 * n)%positive (instances (Z.pos n) 5 g).2
  end.

End Instances.

(** ** The contract of the solver, in the words of its description

    [A] is dense of order [n] when it has [n * n] entries and one for every
    index pair; the residual of a candidate [x] in row [i] is
    [|Σ_j A[i,j]·x[j] − b[i]|]. *)

Section Contract.
Context {F : Type} `{PyNum F}.

Definition dense (A : gmap (Z * Z) F) (n : Z) : Prop :=
  Z.of_nat (size A) = n * n /\
  forall i j, 0 <= i < n -> 0 <= j < n -> is_Some (A !! (i, j)).

Definition entry (A : gmap (Z * Z) F) (i j : Z) : F := default zero (A !! (i, j)).

Definition item (x : list F) (j : Z) : F := default zero (x !! Z.to_nat j).

(** What [gaussSimple] computes for row [i], with Python's [sum]. *)
Definition row_residual (A : gmap (Z * Z) F) (x b : list F) (n i : Z) : F :=
  pyabs (sub (pysum (map (fun j => mul (entry A i j) (item x j)) (range n)))
             (item b i)).

Definition row_residuals (A : gmap (Z * Z) F) (x b : list F) (n : Z) : list F :=
  map (row_residual A x b n) (range n).

(** The store after the two defensive copies of [gaussSimple], and where
    the copies are. *)
Definition copy_loc_U (h : gmap loc (obj F)) : loc := fresh (dom h : gset loc).

Definition copy_loc_x (h : gmap loc (obj F)) (A : gmap (Z * Z) F) : loc :=
  fresh (dom (<[copy_loc_U h := PyDict A]> h) : gset loc).

Definition after_copies (h : gmap loc (obj F)) (A : gmap (Z * Z) F) (b : list F)
  : gmap loc (obj F) :=
  <[copy_loc_x h A := PyList b]> (<[copy_loc_U h := PyDict A]> h).

(** [init + t 0 + t 1 + ... + t (k-1)], the terms added one after the
    other from the left. *)
Fixpoint sigma (init : F) (t : nat -> F) (k : nat) : F :=
  match k with
  | O => init
  | S k' => add (sigma init t k') (t k')
  end.

(** The residual of a candidate [x] in row [i], in the words of the
    description: [|Σ_j A[i,j]·x[j] − b[i]|], the sum over [j = 0, ..., n-1]
    starting from 0. *)
Definition residual (A : gmap (Z * Z) F) (x b : list F) (n i : Z) : F :=
  pyabs (sub (sigma zero (fun j => mul (entry A i (Z.of_nat j)) (item x (Z.of_nat j)))
                (Z.to_nat n))
             (item b i)).

(** What the caller observes of a call: the exception, or the contents of
    the list it was handed back. *)
Definition outcome (res : (exn F + loc) * gmap loc (obj F)) : exn F + list F :=
  match res with
  | (inl e, _) => inl e
  | (inr l, h) =>
      match h !! l with
      | Some (PyList xs) => inr xs
      | _ => inl TypeError
      end
  end.

End Contract.

(** ** The loops of [gauss], row by row

    What the invariants of the three loops are stated with. *)

(** A matrix of [n] rows of [m] entries. *)
Definition shaped (n m : nat) (U : list (list float)) : Prop :=
  length U = n /\ Forall (fun row => length row = m) U.

(** Row [i] of [U] after the first loop: [A[i][0..n-1]], then [b[i]]. *)
Definition input_row (n : nat) (A : list (list float)) (b : list float) (i : nat)
  : list float :=
  map (Cpp.mget A i) (seq 0 n) ++ [Cpp.vget b i].

(** The body of [for(int j=i+1; j<n; ++j)] in the row reduction: what it
    does to row [j] with the pivot row [i]. *)
Definition reduce_row (n i : nat) (U : list (list float)) (j : nat) : list (list float) :=
  let mult := PrimFloat.div (Cpp.mget U j i) (Cpp.mget U i i) in
  let U := Cpp.mset U j i 0%float in
  Cpp.for_loop (i + 1) (n + 1) (fun U k =>
    Cpp.mset U j k
      (PrimFloat.sub (Cpp.mget U j k) (PrimFloat.mul mult (Cpp.mget U i k)))) U.

(** The value the back-substitution computes for [x[i]] from the entries
    [x[i+1], ..., x[n-1]] of [x], with the operations in the order of the
    loop: [(((U[i][n] - U[i][i+1]*x[i+1]) - ...) - U[i][n-1]*x[n-1]) / U[i][i]]. *)
Definition row_solution (n : nat) (U : list (list float)) (x : list float) (i : nat)
  : float :=
  PrimFloat.div
    (Cpp.for_loop (i + 1) n (fun s j =>
       PrimFloat.sub s (PrimFloat.mul (Cpp.mget U i j) (Cpp.vget x j))) (Cpp.mget U i n))
    (Cpp.mget U i i).

(** The sum the last loop forms for row [i]: [-b[i] + A[i][0]*x[0] + ...]. *)
Definition row_sum (n : nat) (A : list (list float)) (b x : list float) (i : nat)
  : float :=
  Cpp.for_loop 0 n (fun sum j =>
    PrimFloat.add sum (PrimFloat.mul (Cpp.mget A i j) (Cpp.vget x j)))
    (PrimFloat.opp (Cpp.vget b i)).

(** ** What a run of [speed] measured and printed *)

(** The readings of the timer, in the order they were taken. *)
Definition readings (evs : list event) : list float :=
  omap (fun e => match e with
                 | EvTimer t => Some t
                 | _ => None
                 end) evs.

(** The mean and the standard deviation of each printed line. *)
Definition reports (evs : list event) : list (float * float) :=
  omap (fun e => match e with
                 | EvPrint _ m s _ => Some (m, s)
                 | _ => None
                 end) evs.

(** The differences [t1 - t0] of the readings taken in pairs; a last
    reading without a partner gives none. *)
Fixpoint spans (ts : list float) : list float :=
  match ts with
  | t0 :: t1 :: ts' => PrimFloat.sub t1 t0 :: spans ts'
  | _ => []
  end.

(** The items in groups of five; what is left after the last full group
    is dropped. *)
Fixpoint fives {A} (l : list A) : list (list A) :=
  match l with
  | a :: b :: c :: d :: e :: l' => [a; b; c; d; e] :: fives l'
  | _ => []
  end.

(** ** Small instances *)

(** [A = {(0,0): 1}], [b = [0]] over the integers, at addresses 1 and 2. *)
Definition int_store : gmap loc (obj Z) :=
  <[2%positive := PyList [0]]> (<[1%positive := PyDict (<[(0, 0) := 1]> ∅)]> ∅).

(** The same matrix with a vector of length 2. *)
Definition int_store_mismatch : gmap loc (obj Z) :=
  <[2%positive := PyList [0; 0]]> (<[1%positive := PyDict (<[(0, 0) := 1]> ∅)]> ∅).

(** [A = [[0,1],[1,0]]], [b = [1,1]]: the first pivot is zero. *)
Definition swap_dict : gmap (Z * Z) float :=
  <[(1, 1) := 0%float]> (<[(1, 0) := 1%float]>
    (<[(0, 1) := 1%float]> (<[(0, 0) := 0%float]> ∅))).

Definition swap_store : gmap loc (obj float) :=
  <[2%positive := PyList [1%float; 1%float]]> (<[1%positive := PyDict swap_dict]> ∅).

Definition swap_rows : list (list float) := [[0%float; 1%float]; [1%float; 0%float]].

(** An empty system over the integers: [A = {}], [b = []]. *)
Definition empty_store : gmap loc (obj Z) :=
  <[2%positive := PyList []]> (<[1%positive := PyDict ∅]> ∅).

(** [A = {(5,5): 1}], [b = [0]]: one entry, as many as a 1 x 1 system has,
    under a key that is not an index pair of it. *)
Definition stray_store : gmap loc (obj Z) :=
  <[2%positive := PyList [0]]> (<[1%positive := PyDict (<[(5, 5) := 1]> ∅)]> ∅).




(** [A = [[2,1],[1,3]]], [b = [3,5]]. *)
Definition two_rows : list (list float) := [[2%float; 1%float]; [1%float; 3%float]].

Definition two_rhs : list float := [3%float; 5%float].

(** ** A small environment for evaluating runs

    A linear congruential generator stands in for Python's generator, and
    the statistics are computed in binary64. *)

Definition lcg_seed (a : Z) : Z := a mod 65537.

Definition lcg_next (g : Z) : float * Z :=
  (PrimFloat.div (PrimFloat.of_uint63 (Uint63.of_Z (g mod 1024))) 1024%float,
   (75 * g + 74) mod 65537).

Definition float_of_nat (k : nat) : float :=
  PrimFloat.of_uint63 (Uint63.of_Z (Z.of_nat k)).

Definition float_mean (ts : list float) : float :=
  PrimFloat.div (fold_left PrimFloat.add ts 0%float) (float_of_nat (length ts)).

Definition float_stdev (ts : list float) : float :=
  let m := float_mean ts in
  let ss := fold_left (fun acc t =>
              PrimFloat.add acc (PrimFloat.mul (PrimFloat.sub t m) (PrimFloat.sub t m)))
              ts 0%float in
  PrimFloat.sqrt (PrimFloat.div ss (float_of_nat (length ts - 1))).

(** A clock too coarse to see the calls: every reading is the same. *)
Definition frozen_clock (k : nat) : float := 0%float.

(** A clock on which the [i]-th round takes [4 i + 1] units. *)
Definition ticking_clock (k : nat) : float := float_of_nat (k * k).

Definition fresh_world : world Z := World 0 true 0%nat [].

(** A solver that returns at once. *)
Definition instant_solver (A : matrix) (b : list float) : exn float + unit := inr tt.

(** [gaussSimple] as the solver under test, as in [gausstest.speed(gaussSimple)]:
    called on a store that holds the instance. *)
Definition gaussSimple_method (A : matrix) (b : list float) : exn float + list float :=
  outcome (gaussSimple 1%positive 2%positive
             (<[2%positive := PyList b]> (<[1%positive := PyDict A]> ∅))).

(** Runs in the small environment. *)

(** One size, a clock that advances, a solver that returns. *)
Definition quick_run : (exn float + unit) * world Z :=
  speed lcg_seed lcg_next ticking_clock float_mean float_stdev instant_solver 50
    fresh_world.

(** The same on a clock that does not move, from a world with a history. *)
Definition still_run : (exn float + unit) * world Z :=
  speed lcg_seed lcg_next frozen_clock float_mean float_stdev instant_solver 50
    (World 7 false 3%nat [EvGcCollect]).

(** Two sizes on a clock that does not move. *)
Definition frozen_run : (exn float + unit) * world Z :=
  speed lcg_seed lcg_next frozen_clock float_mean float_stdev instant_solver 100
    fresh_world.

(** The skeleton of [gaussSimple] under test: its first call raises. *)
Definition failing_run : (exn float + unit) * world Z :=
  speed lcg_seed lcg_next ticking_clock float_mean float_stdev gaussSimple_method 400
    fresh_world.

(** * Properties *)

(** ** The order of binary64

    The comparisons of [SpecFloat] order the numbers by sign, exponent and
    mantissa; a NaN compares false with everything. *)

Module FloatOrder.

Ltac compare_cases :=
  repeat match goal with
  | H : context [Pos.compare_cont Eq ?a ?b] |- _ =>
      change (Pos.compare_cont Eq a b) with (Pos.compare a b) in *
  | |- context [Pos.compare_cont Eq ?a ?b] =>
      change (Pos.compare_cont Eq a b) with (Pos.compare a b) in *
  | H : context [Z.compare ?a ?b] |- _ => destruct (Z.compare_spec a b)
  | |- context [Z.compare ?a ?b] => destruct (Z.compare_spec a b)
  | H : context [Pos.compare ?a ?b] |- _ => destruct (Pos.compare_spec a b)
  | |- context [Pos.compare ?a ?b] => destruct (Pos.compare_spec a b)
  end;
  cbn in *; try congruence; try lia.

Ltac by_cases a b c :=
  destruct a as [[]|[]| |[] ? ?], b as [[]|[]| |[] ? ?], c as [[]|[]| |[] ? ?];
  cbn; try congruence; try tauto; compare_cases.

Lemma SFltb_trans a b c : SFltb a b = true -> SFltb b c = true -> SFltb a c = true.
Proof. unfold SFltb, SFcompare. by_cases a b c. Qed.


(** [b] is not above [a], and [a] is below [c]: so is [b], unless it is a NaN. *)
Lemma SFltb_below a b c :
  SFltb a b = false -> SFltb a c = true -> SFltb b c = true \/ b = S754_nan.
Proof.
  unfold SFltb, SFcompare.
  destruct a as [[]|[]| |[] ? ?], b as [[]|[]| |[] ? ?], c as [[]|[]| |[] ? ?];
    cbn; try congruence; try tauto; intros; left; compare_cases.
Qed.




Lemma is_nan_spec f : PrimFloat.is_nan f = true <-> Prim2SF f = S754_nan.
Proof.
  unfold PrimFloat.is_nan. rewrite FloatAxioms.eqb_spec. unfold SFeqb, SFcompare.
  destruct (Prim2SF f) as [[]|[]| |[] ? ?]; cbn; split; try congruence;
    compare_cases.
Qed.

Lemma not_nan_spec f : PrimFloat.is_nan f = false <-> Prim2SF f <> S754_nan.
Proof.
  rewrite <- is_nan_spec. destruct (PrimFloat.is_nan f); split; congruence.
Qed.

Lemma ltb_trans a b c :
  PrimFloat.ltb a b = true -> PrimFloat.ltb b c = true -> PrimFloat.ltb a c = true.
Proof. rewrite !FloatAxioms.ltb_spec. apply SFltb_trans. Qed.

Lemma ltb_below a b c :
  PrimFloat.ltb a b = false -> PrimFloat.ltb a c = true ->
  PrimFloat.ltb b c = true \/ PrimFloat.is_nan b = true.
Proof.
  rewrite !FloatAxioms.ltb_spec, is_nan_spec. apply SFltb_below.
Qed.

Lemma ltb_ordered_r a b : PrimFloat.ltb a b = true -> PrimFloat.is_nan b = false.
Proof.
  rewrite FloatAxioms.ltb_spec, not_nan_spec. unfold SFltb, SFcompare.
  destruct (Prim2SF a) as [[]|[]| |[] ? ?], (Prim2SF b) as [[]|[]| |[] ? ?];
    cbn; congruence.
Qed.






End FloatOrder.

#[export] Instance float_order : NanOrder float := {
  unordered := PrimFloat.is_nan;
  gt_ordered := fun r m => FloatOrder.ltb_ordered_r m r;
  gt_below := fun r m => FloatOrder.ltb_trans m r tol;
  le_below := fun r m => FloatOrder.ltb_below m r tol
}.

Lemma int_gt_below (r m : Z) : (r >? m) = true -> (r <? 1) = true -> (m <? 1) = true.
Proof.
  intros Hgt Hlt. apply Z.ltb_lt. apply Z.ltb_lt in Hlt.
  rewrite Z.gtb_ltb in Hgt. apply Z.ltb_lt in Hgt. lia.
Qed.

Lemma int_le_below (r m : Z) :
  (r >? m) = false -> (m <? 1) = true -> (r <? 1) = true \/ false = true.
Proof.
  intros Hgt Hlt. left. apply Z.ltb_lt. apply Z.ltb_lt in Hlt.
  rewrite Z.gtb_ltb in Hgt. apply Z.ltb_ge in Hgt. lia.
Qed.

#[export] Instance int_order : NanOrder Z := {
  unordered := fun _ => false;
  gt_ordered := fun _ _ _ => eq_refl;
  gt_below := int_gt_below;
  le_below := int_le_below
}.

(** ** Running a computation *)

Section Monad.
Context {S E : Type}.

Lemma bind_run {A B} (m : M S E A) (k : A -> M S E B) s r s' :
  m s = (r, s') ->
  bind m k s = match r with inl e => (inl e, s') | inr a => k a s' end.
Proof. intros Hm. unfold bind. rewrite Hm. destruct r; reflexivity. Qed.

Lemma bind_ok {A B} (m : M S E A) (k : A -> M S E B) s a s' :
  m s = (inr a, s') -> bind m k s = k a s'.
Proof. intros Hm. by rewrite (bind_run _ _ _ _ _ Hm). Qed.

Lemma bind_raise {A B} (m : M S E A) (k : A -> M S E B) s e s' :
  m s = (inl e, s') -> bind m k s = (inl e, s').
Proof. intros Hm. by rewrite (bind_run _ _ _ _ _ Hm). Qed.

(** A sequence of reads that all succeed without touching the state. *)
Lemma mapM_reads {A B} (f : A -> M S E B) (g : A -> B) (l : list A) s :
  (forall a, a ∈ l -> f a s = (inr (g a), s)) ->
  mapM f l s = (inr (map g l), s).
Proof.
  induction l as [|a l IH]; intros Hf; [reflexivity|].
  simpl. rewrite (bind_ok _ _ _ _ _ (Hf a ltac:(left))).
  rewrite (bind_ok _ _ _ _ _ (IH (fun a' Ha' => Hf a' ltac:(by right)))).
  reflexivity.
Qed.

End Monad.

(** ** Reading the store *)

Section Store.
Context {F : Type} `{PyNum F}.
Implicit Types (h : gmap loc (obj F)) (A : gmap (Z * Z) F) (x b : list F).

Lemma get_dict_run h a A :
  h !! a = Some (PyDict A) -> get_dict a h = (inr A, h).
Proof. intros Ha. unfold get_dict. by rewrite Ha. Qed.

Lemma get_list_run h l x :
  h !! l = Some (PyList x) -> get_list l h = (inr x, h).
Proof. intros Hl. unfold get_list. by rewrite Hl. Qed.

Lemma py_index_item x j :
  0 <= j < Z.of_nat (length x) -> py_index x j = Some (item x j).
Proof.
  intros Hj. unfold py_index, item.
  destruct (0 <=? j) eqn:E; [|apply Z.leb_gt in E; lia].
  destruct (lookup_lt_is_Some_2 x (Z.to_nat j) ltac:(lia)) as [v Hv].
  by rewrite Hv.
Qed.

Lemma dict_getitem_run h a A i j :
  h !! a = Some (PyDict A) -> is_Some (A !! (i, j)) ->
  dict_getitem a (i, j) h = (inr (entry A i j), h).
Proof.
  intros Ha [v Hv]. unfold dict_getitem.
  rewrite (bind_ok _ _ _ _ _ (get_dict_run _ _ _ Ha)).
  unfold lift, entry. by rewrite Hv.
Qed.

Lemma list_getitem_run h l x j :
  h !! l = Some (PyList x) -> 0 <= j < Z.of_nat (length x) ->
  list_getitem l j h = (inr (item x j), h).
Proof.
  intros Hl Hj. unfold list_getitem.
  rewrite (bind_ok _ _ _ _ _ (get_list_run _ _ _ Hl)).
  unfold lift. by rewrite py_index_item.
Qed.

Lemma in_range n i : i ∈ range n <-> 0 <= i < n.
Proof. unfold range. rewrite elem_of_seqZ. lia. Qed.

(** On a dense matrix and vectors of the right length, no lookup of the
    residual computation raises, and the row's value is the contract's. *)
Lemma row_error_run h a lx lb A x b n i :
  h !! a = Some (PyDict A) -> h !! lx = Some (PyList x) ->
  h !! lb = Some (PyList b) ->
  dense A n -> Z.of_nat (length x) = n -> Z.of_nat (length b) = n ->
  0 <= i < n ->
  row_error a lx lb (range n) i h = (inr (row_residual A x b n i), h).
Proof.
  intros Ha Hx Hb [_ HA] Hlx Hlb Hi. unfold row_error.
  assert (Hterms : mapM (fun j =>
              do aij <- dict_getitem a (i, j);
              do xj <- list_getitem lx j;
              ret (mul aij xj)) (range n) h
            = (inr (map (fun j => mul (entry A i j) (item x j)) (range n)), h)).
  { apply mapM_reads. intros j Hj%in_range.
    rewrite (bind_ok _ _ _ _ _ (dict_getitem_run _ _ _ _ _ Ha (HA i j Hi Hj))).
    rewrite (bind_ok _ _ _ _ _ (list_getitem_run h lx x j Hx ltac:(lia))).
    reflexivity. }
  rewrite (bind_ok _ _ _ _ _ Hterms).
  rewrite (bind_ok _ _ _ _ _ (list_getitem_run h lb b i Hb ltac:(lia))).
  reflexivity.
Qed.

End Store.

(** ** What [gaussSimple] does on a store *)

Section GaussSimpleFacts.
Context {F : Type} `{PyNum F}.
Implicit Types (h : gmap loc (obj F)) (A : gmap (Z * Z) F) (x b : list F).

Lemma in_index_pairs n i j :
  (i, j) ∈ index_pairs (range n) <-> 0 <= i < n /\ 0 <= j < n.
Proof.
  unfold index_pairs. rewrite list_elem_of_bind. split.
  - intros (i' & (j' & Hij & Hj')%list_elem_of_bind & Hi').
    apply list_elem_of_singleton in Hij. injection Hij as -> ->.
    by rewrite <- !in_range.
  - intros [Hi Hj]. exists i. split; [|by apply in_range].
    apply list_elem_of_bind. exists j. split; [by left|by apply in_range].
Qed.

Lemma all_present_dense A n :
  forallb (fun k => bool_decide (is_Some (A !! k))) (index_pairs (range n)) = true <->
  forall i j, 0 <= i < n -> 0 <= j < n -> is_Some (A !! (i, j)).
Proof.
  rewrite forallb_forall. split.
  - intros Hall i j Hi Hj.
    eapply bool_decide_eq_true_1, Hall, list_elem_of_In, in_index_pairs. done.
  - intros HA [i j] [Hi Hj]%list_elem_of_In%in_index_pairs.
    apply bool_decide_eq_true_2. auto.
Qed.

Lemma py_all_contains_run h a A ks :
  h !! a = Some (PyDict A) ->
  py_all (dict_contains a) ks h
  = (inr (forallb (fun k => bool_decide (is_Some (A !! k))) ks), h).
Proof.
  intros Ha. induction ks as [|k ks IH]; [reflexivity|].
  simpl. unfold dict_contains at 1.
  rewrite (bind_ok _ _ _ _ _
             (bind_ok _ _ _ _ _ (get_dict_run _ _ _ Ha))).
  destruct (bool_decide (is_Some (A !! k))); [exact IH|reflexivity].
Qed.

Lemma copy_loc_U_fresh h : h !! copy_loc_U h = None.
Proof. apply not_elem_of_dom, is_fresh. Qed.

Lemma copy_loc_x_fresh h A : h !! copy_loc_x h A = None.
Proof.
  pose proof (is_fresh (dom (<[copy_loc_U h := PyDict A]> h))) as Hf.
  apply not_elem_of_dom. unfold copy_loc_x.
  rewrite dom_insert_L in Hf |- *. set_solver.
Qed.

Lemma copy_loc_x_ne_U h A : copy_loc_x h A <> copy_loc_U h.
Proof.
  pose proof (is_fresh (dom (<[copy_loc_U h := PyDict A]> h))) as Hf.
  unfold copy_loc_x. rewrite dom_insert_L in Hf |- *. set_solver.
Qed.

Lemma after_copies_old h A b l o :
  h !! l = Some o -> after_copies h A b !! l = Some o.
Proof.
  intros Hl. unfold after_copies.
  rewrite !lookup_insert_ne; [done| |].
  - intros E. rewrite <- E, copy_loc_U_fresh in Hl. done.
  - intros E. rewrite <- E, copy_loc_x_fresh in Hl. done.
Qed.

Lemma after_copies_x h A b :
  after_copies h A b !! copy_loc_x h A = Some (PyList b).
Proof. apply lookup_insert_eq. Qed.

(** The three outcomes of a call, by the checks in the order the function
    makes them. *)
Lemma gaussSimple_run h a lb A b :
  h !! a = Some (PyDict A) -> h !! lb = Some (PyList b) ->
  let n := Z.of_nat (length b) in
  gaussSimple a lb h =
    if negb (Z.of_nat (size A) =? n * n) then (inl (AssertionError WrongSize), h)
    else if negb (forallb (fun k => bool_decide (is_Some (A !! k)))
                    (index_pairs (range n)))
    then (inl (AssertionError SparseMatrix), h)
    else match pymax (row_residuals A b b n) with
         | inl e => (inl e, after_copies h A b)
         | inr error =>
             if lt_tol error then (inr (copy_loc_x h A), after_copies h A b)
             else (inl (AssertionError (IncorrectSolution error)), after_copies h A b)
         end.
Proof.
  intros Ha Hb n. unfold gaussSimple.
  unfold list_len at 1.
  rewrite (bind_ok _ _ _ _ _ (bind_ok _ _ _ _ _ (get_list_run _ _ _ Hb))).
  fold n. unfold dict_len at 1.
  rewrite (bind_ok _ _ _ _ _ (bind_ok _ _ _ _ _ (get_dict_run _ _ _ Ha))).
  destruct (Z.of_nat (size A) =? n * n) eqn:Hsize; [|reflexivity].
  simpl negb. cbv iota.
  rewrite (bind_ok (py_assert true WrongSize) _ h tt h eq_refl).
  rewrite (bind_ok _ _ _ _ _ (py_all_contains_run _ _ _ _ Ha)).
  destruct (forallb _ _) eqn:Hall; [|reflexivity].
  simpl negb. cbv iota.
  rewrite (bind_ok (py_assert true SparseMatrix) _ h tt h eq_refl).
  assert (Hdense : dense A n).
  { split; [by apply Z.eqb_eq|by apply all_present_dense]. }
  unfold dict_copy at 1.
  rewrite (bind_ok _ _ _ (copy_loc_U h) (<[copy_loc_U h := PyDict A]> h)
             (bind_ok _ _ _ _ _ (get_dict_run _ _ _ Ha))).
  assert (Hb1 : <[copy_loc_U h := PyDict A]> h !! lb = Some (PyList b)).
  { rewrite lookup_insert_ne; [done|].
    intros E. rewrite <- E, copy_loc_U_fresh in Hb. done. }
  unfold list_copy at 1.
  rewrite (bind_ok _ _ _ (copy_loc_x h A) (after_copies h A b)
             (bind_ok _ _ _ _ _ (get_list_run _ _ _ Hb1))).
  assert (Herrors :
    mapM (row_error a (copy_loc_x h A) lb (range n)) (range n) (after_copies h A b)
    = (inr (row_residuals A b b n), after_copies h A b)).
  { apply mapM_reads. intros i Hi%in_range.
    apply row_error_run; auto using after_copies_old, after_copies_x. }
  rewrite (bind_ok _ _ _ _ _ Herrors).
  unfold lift at 1.
  destruct (pymax (row_residuals A b b n)) as [e|error] eqn:Hmax.
  - by rewrite (bind_raise _ _ _ e (after_copies h A b) eq_refl).
  - rewrite (bind_ok _ _ _ error (after_copies h A b) eq_refl).
    unfold py_assert. destruct (lt_tol error); reflexivity.
Qed.

End GaussSimpleFacts.

(** ** The solver's contract *)

Section SolverClaims.
Context {F : Type} `{PyNum F}.
Implicit Types (h : gmap loc (obj F)) (A : gmap (Z * Z) F) (x b : list F).

Lemma dense_checks A n :
  dense A n ->
  (Z.of_nat (size A) =? n * n) = true /\
  forallb (fun k => bool_decide (is_Some (A !! k))) (index_pairs (range n)) = true.
Proof.
  intros [Hsize HA]. split; [by apply Z.eqb_eq|by apply all_present_dense].
Qed.

Lemma pymax_nonempty (l : list F) : l <> [] -> exists m, pymax l = inr m.
Proof. destruct l; [done|]. intros _. simpl. eauto. Qed.

Lemma row_residuals_nonempty A x b n : 0 < n -> row_residuals A x b n <> [].
Proof.
  intros Hn E. apply (f_equal length) in E.
  unfold row_residuals, range in E. rewrite length_map, length_seqZ in E.
  simpl in E. lia.
Qed.

(** C7: when [A] does not have exactly len(b)² entries, one for each index
    pair, [gaussSimple] raises the assertion of its input checks ("Matrix
    A has wrong size", or "Cannot handle sparse matrix A" when only the
    count is right); the exception is the result of the call, and the
    store is as it was. *)
Theorem gaussSimple_dimension_error h a lb A b :
  h !! a = Some (PyDict A) -> h !! lb = Some (PyList b) ->
  ~ dense A (Z.of_nat (length b)) ->
  gaussSimple a lb h =
    (inl (AssertionError
            (if Z.of_nat (size A) =? Z.of_nat (length b) * Z.of_nat (length b)
             then SparseMatrix else WrongSize)), h).
Proof.
  intros Ha Hb Hnot.
  rewrite (gaussSimple_run h a lb A b Ha Hb). cbv zeta.
  destruct (Z.of_nat (size A) =? _) eqn:Hsize; [|reflexivity].
  simpl. destruct (forallb _ _) eqn:Hall; [|reflexivity].
  exfalso. apply Hnot. split; [by apply Z.eqb_eq|by apply all_present_dense].
Qed.

Lemma gaussSimple_outcome h a lb A b :
  h !! a = Some (PyDict A) -> h !! lb = Some (PyList b) ->
  let n := Z.of_nat (length b) in
  outcome (gaussSimple a lb h) =
    if negb (Z.of_nat (size A) =? n * n) then inl (AssertionError WrongSize)
    else if negb (forallb (fun k => bool_decide (is_Some (A !! k)))
                    (index_pairs (range n)))
    then inl (AssertionError SparseMatrix)
    else match pymax (row_residuals A b b n) with
         | inl e => inl e
         | inr error =>
             if lt_tol error then inr b
             else inl (AssertionError (IncorrectSolution error))
         end.
Proof.
  intros Ha Hb n. rewrite (gaussSimple_run h a lb A b Ha Hb). fold n.
  destruct (negb _); [reflexivity|]. destruct (negb _); [reflexivity|].
  destruct (pymax _) as [e|error]; [reflexivity|].
  destruct (lt_tol error); [|reflexivity].
  unfold outcome. by rewrite after_copies_x.
Qed.

Lemma gaussSimple_store h a lb A b :
  h !! a = Some (PyDict A) -> h !! lb = Some (PyList b) ->
  (gaussSimple a lb h).2 = h \/ (gaussSimple a lb h).2 = after_copies h A b.
Proof.
  intros Ha Hb. rewrite (gaussSimple_run h a lb A b Ha Hb). cbv zeta.
  destruct (negb _); [by left|]. destruct (negb _); [by left|].
  destruct (pymax _) as [e|error]; [by right|].
  destruct (lt_tol error); by right.
Qed.

(** C3: a call of [gaussSimple], returning or raising, leaves every object
    of the caller's store as it was, the matrix and the vector among them;
    the list it returns is a new object; and a second call on the same
    arguments has the same outcome as the first. *)
Theorem gaussSimple_frame h a lb A b :
  h !! a = Some (PyDict A) -> h !! lb = Some (PyList b) ->
  let res := gaussSimple a lb h in
  (forall l o, h !! l = Some o -> res.2 !! l = Some o) /\
  res.2 !! a = Some (PyDict A) /\ res.2 !! lb = Some (PyList b) /\
  (forall lx, res.1 = inr lx -> h !! lx = None) /\
  outcome (gaussSimple a lb res.2) = outcome res.
Proof.
  intros Ha Hb res.
  assert (Hold : forall l o, h !! l = Some o -> res.2 !! l = Some o).
  { intros l o Hl. subst res.
    destruct (gaussSimple_store h a lb A b Ha Hb) as [-> | ->];
      [done|by apply after_copies_old]. }
  split; [exact Hold|]. split; [by apply Hold|]. split; [by apply Hold|]. split.
  - intros lx. subst res. rewrite (gaussSimple_run h a lb A b Ha Hb). cbv zeta.
    destruct (negb _); [done|]. destruct (negb _); [done|].
    destruct (pymax _) as [e|error]; [done|].
    destruct (lt_tol error); [|done].
    simpl. intros [= <-]. apply copy_loc_x_fresh.
  - rewrite (gaussSimple_outcome res.2 a lb A b) by (by apply Hold).
    subst res. by rewrite (gaussSimple_outcome h a lb A b).
Qed.

End SolverClaims.

(** ** The instance generator *)

Section Generator.
Context {rng : Type} (seed_state : Z -> rng) (next_random : rng -> float * rng).
Implicit Types (w : world rng) (g : rng).

Lemma length_draw k g : length (draw next_random k g).1 = k.
Proof.
  revert g. induction k as [|k IH]; intros g; [reflexivity|].
  simpl. destruct (next_random g) as [v g1].
  specialize (IH g1). destruct (draw next_random k g1) as [vs g2]. simpl in *. lia.
Qed.

(** Drawing one value per item of a list: nothing raises, and only the
    generator moves. *)
Lemma mapM_random_run {K B} (f : K -> float -> B) (ks : list K) w :
  mapM (fun k => do v <- random next_random; ret (f k v)) ks w
  = (inr (zip_with f ks (draw next_random (length ks) (w_rng w)).1),
     set_rng (draw next_random (length ks) (w_rng w)).2 w).
Proof.
  revert w. induction ks as [|k ks IH]; intros w.
  - destruct w. reflexivity.
  - simpl. unfold bind at 1 2. unfold random at 1.
    destruct (next_random (w_rng w)) as [v g1] eqn:Hv.
    unfold ret at 1. unfold bind at 1. rewrite IH. simpl.
    destruct (draw next_random (length ks) g1) as [vs g2]. reflexivity.
Qed.

Lemma mapM_random_values {K} (ks : list K) w :
  mapM (fun _ => random next_random) ks w
  = (inr (draw next_random (length ks) (w_rng w)).1,
     set_rng (draw next_random (length ks) (w_rng w)).2 w).
Proof.
  revert w. induction ks as [|k ks IH]; intros w.
  - destruct w. reflexivity.
  - simpl. unfold bind at 1. unfold random at 1.
    destruct (next_random (w_rng w)) as [v g1] eqn:Hv.
    unfold bind at 1. rewrite IH. simpl.
    destruct (draw next_random (length ks) g1) as [vs g2]. reflexivity.
Qed.

Lemma randProb_run n w :
  0 < n ->
  randProb next_random n w
  = (inr (generate next_random n (w_rng w)).1,
     set_rng (generate next_random n (w_rng w)).2 w).
Proof.
  intros Hn. unfold randProb, generate.
  destruct (0 <? n) eqn:E; [|apply Z.ltb_ge in E; lia].
  rewrite (bind_ok (ret tt) _ w tt w eq_refl).
  rewrite (bind_ok _ _ _ _ _ (mapM_random_run pair _ w)).
  rewrite (bind_ok _ _ _ _ _ (mapM_random_values _ _)).
  simpl.
  destruct (draw next_random (length (index_pairs (range n))) (w_rng w)) as [vs g1].
  simpl.
  destruct (draw next_random (length (range n)) g1) as [b g2]. reflexivity.
Qed.

Lemma randProb_rejects n w :
  n <= 0 -> randProb next_random n w = (inl (AssertionError NoMessage), w).
Proof.
  intros Hn. unfold randProb.
  destruct (0 <? n) eqn:E; [apply Z.ltb_lt in E; lia|]. reflexivity.
Qed.

End Generator.

(** ** Dictionaries built from pairs *)

Lemma py_dict_acc (entries : list ((Z * Z) * float)) (d : matrix) :
  NoDup entries.*1 -> (forall k, k ∈ entries.*1 -> d !! k = None) ->
  size (fold_left (fun d kv => <[kv.1 := kv.2]> d) entries d)
  = (size d + length entries)%nat /\
  forall k, is_Some (fold_left (fun d kv => <[kv.1 := kv.2]> d) entries d !! k)
            <-> is_Some (d !! k) \/ k ∈ entries.*1.
Proof.
  revert d. induction entries as [|[k v] entries IH]; intros d Hnd Hfresh.
  - simpl. split; [lia|]. intros k. rewrite elem_of_nil. tauto.
  - simpl in *. apply NoDup_cons in Hnd as [Hk Hnd].
    destruct (IH (<[k := v]> d) Hnd) as [Hsize Hdom].
    { intros k' Hk'. rewrite lookup_insert_ne; [apply Hfresh; by right|].
      intros ->. done. }
    split.
    + rewrite Hsize, map_size_insert_None; [lia|]. apply Hfresh. by left.
    + intros k'. rewrite Hdom, elem_of_cons.
      destruct (decide (k = k')) as [->|Hne].
      * rewrite lookup_insert_eq. split; [auto|]. intros _. left. eauto.
      * rewrite lookup_insert_ne by done. split; [tauto|].
        intros [?|[?|?]]; auto. congruence.
Qed.

Lemma py_dict_size entries :
  NoDup entries.*1 -> size (py_dict entries) = length entries.
Proof.
  intros Hnd. destruct (py_dict_acc entries ∅ Hnd) as [Hsize _].
  - intros. apply lookup_empty.
  - unfold py_dict. rewrite Hsize, map_size_empty. lia.
Qed.

Lemma py_dict_keys entries k :
  NoDup entries.*1 -> is_Some (py_dict entries !! k) <-> k ∈ entries.*1.
Proof.
  intros Hnd. destruct (py_dict_acc entries ∅ Hnd) as [_ Hdom].
  - intros. apply lookup_empty.
  - unfold py_dict. rewrite Hdom, lookup_empty. split; [|auto].
    intros [[? [=]]|?]; done.
Qed.

Lemma length_pairs (N1 N2 : list Z) :
  length (N1 ≫= (fun i => N2 ≫= (fun j => [(i, j)])))
  = (length N1 * length N2)%nat.
Proof.
  assert (Hin : forall i : Z, length (N2 ≫= (fun j => [(i, j)])) = length N2).
  { intros i. induction N2 as [|j N2 IH]; [reflexivity|].
    rewrite bind_cons. simpl. by rewrite IH. }
  induction N1 as [|i N1 IH]; [reflexivity|].
  rewrite bind_cons, length_app, IH, Hin. simpl. lia.
Qed.

Lemma length_index_pairs N : length (index_pairs N) = (length N * length N)%nat.
Proof. apply length_pairs. Qed.

Lemma NoDup_index_pairs N : NoDup N -> NoDup (index_pairs N).
Proof.
  intros HN. unfold index_pairs. apply NoDup_bind; [| |done].
  - intros i1 i2 [i j] _ _ (j1 & H1 & _)%list_elem_of_bind (j2 & H2 & _)%list_elem_of_bind.
    apply list_elem_of_singleton in H1, H2. congruence.
  - intros i _. apply NoDup_bind; [| |done].
    + intros j1 j2 y _ _ H1%list_elem_of_singleton H2%list_elem_of_singleton. congruence.
    + intros j _. apply NoDup_singleton.
Qed.

(** ** Running the speed test *)

Section HarnessFacts.
Context {rng R : Type}.
Variable seed_state : Z -> rng.
Variable next_random : rng -> float * rng.
Variable process_time : nat -> float.
Variables mean stdev : list float -> float.
Variable method : matrix -> list float -> exn float + R.
Implicit Types (w : world rng) (g : rng).

(** One round of [timeit] with collection already off: the instance is
    generated first, and the two readings of the timer enclose the call
    and nothing else. *)
Lemma timeit_timeit_run n w :
  0 < n -> w_gc w = false ->
  timeit_timeit process_time (setup next_random n) (stmt method) w =
    let Ab := (generate next_random n (w_rng w)).1 in
    let g := (generate next_random n (w_rng w)).2 in
    let t0 := process_time (w_clock w) in
    let t1 := process_time (S (w_clock w)) in
    match method Ab.1 Ab.2 with
    | inr _ =>
        (inr (PrimFloat.sub t1 t0),
         World g false (S (S (w_clock w))) (w_trace w ++ round_events n Ab t0 t1))
    | inl e =>
        (inl e,
         World g false (S (w_clock w)) (w_trace w ++ failed_round_events n Ab t0))
    end.
Proof.
  intros Hn Hgc. destruct w as [g0 gc c tr]. simpl in Hgc. subst gc.
  cbv [timeit_timeit try_finally setup stmt bind gc_isenabled gc_disable log
       gc_set timer ret lift gc_enable w_gc w_rng w_clock w_trace].
  rewrite randProb_run by done.
  cbv [set_rng w_gc w_rng w_clock w_trace].
  destruct (generate next_random n g0) as [[A b] g1]. cbn.
  destruct (method A b) as [e|r]; cbn;
    unfold round_events, failed_round_events; cbn;
    by rewrite <- !app_assoc.
Qed.

Lemma timeit_repeat_run k n w :
  0 < n -> w_gc w = false ->
  let res := timeit_repeat process_time k (setup next_random n) (stmt method) w in
  w_gc res.2 = false /\
  ((exists evs ds,
       res.1 = inr ds /\
       rounds next_random method n k (w_rng w) evs ds (w_rng res.2) /\
       w_trace res.2 = w_trace w ++ evs) \/
   (exists j evs ds g' t0 e,
       res.1 = inl e /\ (j < k)%nat /\
       rounds next_random method n j (w_rng w) evs ds g' /\
       method (generate next_random n g').1.1 (generate next_random n g').1.2 = inl e /\
       w_trace res.2
       = w_trace w ++ evs ++ failed_round_events n (generate next_random n g').1 t0)).
Proof.
  intros Hn. revert w. induction k as [|k IH]; intros w Hgc.
  - simpl. split; [done|]. left. exists [], []. split; [done|].
    split; [constructor|]. by rewrite app_nil_r.
  - cbn [timeit_repeat]. cbv zeta.
    pose proof (timeit_timeit_run n w Hn Hgc) as Hround. cbv zeta in Hround.
    destruct (method _ _) as [e|r] eqn:Hm.
    + rewrite (bind_raise _ _ _ _ _ Hround). simpl. split; [done|].
      right. exists 0%nat, [], [], (w_rng w), (process_time (w_clock w)), e.
      split; [done|]. split; [lia|]. split; [constructor|]. split; [done|done].
    + rewrite (bind_ok _ _ _ _ _ Hround).
      set (w1 := World _ false _ _).
      destruct (IH w1 eq_refl) as [Hgc' Hcases]. cbv zeta in Hcases.
      destruct (timeit_repeat process_time k _ _ w1) as [[e|ds] w2] eqn:Hrest;
        [rewrite (bind_raise _ _ _ _ _ Hrest)|rewrite (bind_ok _ _ _ _ _ Hrest)];
        simpl in *.
      * split; [done|]. right.
        destruct Hcases as [(? & ? & [=] & _)|(j & evs & ds & g' & t0 & e' & [= <-] & Hj & Hrounds & Hfail & Htr)].
        exists (S j), (round_events n (generate next_random n (w_rng w)).1
                        (process_time (w_clock w)) (process_time (S (w_clock w))) ++ evs),
          (PrimFloat.sub (process_time (S (w_clock w))) (process_time (w_clock w)) :: ds),
          g', t0, e.
        split; [done|]. split; [lia|]. split.
        { constructor; [by eexists|done]. }
        split; [done|]. rewrite Htr. by rewrite <- !app_assoc.
      * split; [done|]. left.
        destruct Hcases as [(evs & ds' & [= <-] & Hrounds & Htr)|(? & ? & ? & ? & ? & ? & [=] & _)].
        exists (round_events n (generate next_random n (w_rng w)).1
                  (process_time (w_clock w)) (process_time (S (w_clock w))) ++ evs),
          (PrimFloat.sub (process_time (S (w_clock w))) (process_time (w_clock w)) :: ds).
        split; [done|]. split.
        { constructor; [by eexists|done]. }
        rewrite Htr. by rewrite <- !app_assoc.
Qed.

Lemma speed_body_run prev n w :
  0 < n -> w_gc w = false ->
  let res := speed_body next_random process_time mean stdev method prev n w in
  w_gc res.2 = false /\
  ((exists evs m,
       res.1 = inr m /\
       block next_random mean stdev method prev n (w_rng w) evs m (w_rng res.2) /\
       w_trace res.2 = w_trace w ++ evs) \/
   (exists evs e,
       res.1 = inl e /\
       failed_block next_random method n (w_rng w) evs e /\
       w_trace res.2 = w_trace w ++ evs)).
Proof.
  intros Hn Hgc. cbv zeta. unfold speed_body.
  set (w0 := World (w_rng w) (w_gc w) (w_clock w) (w_trace w ++ [EvGcCollect])).
  rewrite (bind_ok gc_collect _ w tt w0 eq_refl).
  destruct (timeit_repeat_run 5 n w0 Hn Hgc) as [Hgc' Hcases]. cbv zeta in Hcases.
  destruct (timeit_repeat process_time 5 _ _ w0) as [[e|ds] w1] eqn:Hrep;
    [rewrite (bind_raise _ _ _ _ _ Hrep)|rewrite (bind_ok _ _ _ _ _ Hrep)];
    simpl in *.
  - split; [done|]. right.
    destruct Hcases as [(? & ? & [=] & _)|(j & evs & ds & g' & t0 & e' & [= <-] & Hj & Hrounds & Hfail & Htr)].
    exists (EvGcCollect :: evs ++ failed_round_events n (generate next_random n g').1 t0), e.
    split; [done|]. split; [by econstructor|].
    rewrite Htr. by rewrite <- app_assoc.
  - destruct Hcases as [(evs & ds' & [= <-] & Hrounds & Htr)|(? & ? & ? & ? & ? & ? & [=] & _)].
    split; [done|]. left.
    exists (EvGcCollect :: evs
            ++ [EvPrint n (mean ds) (stdev ds) (ratio prev (mean ds))]), (mean ds).
    split; [done|]. split; [by constructor|].
    rewrite Htr. rewrite <- !app_assoc. reflexivity.
Qed.

Lemma speed_loop_step maxSize prev n :
  speed_loop next_random process_time mean stdev method maxSize prev n =
    if decide (Z.pos n <= maxSize)
    then do prev' <- speed_body next_random process_time mean stdev method prev (Z.pos n);
         speed_loop next_random process_time mean stdev method maxSize prev' (2 * n)%positive
    else ret tt.
Proof.
  simp speed_loop.
  destruct (Z_le_dec (Z.pos n) maxSize), (decide (Z.pos n <= maxSize));
    try done; reflexivity.
Qed.

(** The loop, from a world with collection off: either it runs through a
    complete sweep, or it stops inside the block where the solver raised;
    collection stays off either way. *)
Lemma speed_loop_run maxSize prev n w :
  w_gc w = false ->
  let res := speed_loop next_random process_time mean stdev method maxSize prev n w in
  w_gc res.2 = false /\
  exists evs, w_trace res.2 = w_trace w ++ evs /\
    match res.1 with
    | inr _ => sweep next_random mean stdev method maxSize prev n (w_rng w) evs
    | inl e => failed_sweep next_random mean stdev method maxSize prev n (w_rng w) evs e
    end.
Proof.
  remember (Z.to_nat (maxSize + 1 - Z.pos n)) as fuel eqn:Hfuel.
  revert prev n w Hfuel.
  induction (lt_wf fuel) as [fuel _ IH]. intros prev n w -> Hgc. cbv zeta.
  rewrite speed_loop_step.
  destruct (decide (Z.pos n <= maxSize)) as [Hle|Hgt].
  - destruct (speed_body_run prev (Z.pos n) w ltac:(lia) Hgc) as [Hgc1 Hcases].
    cbv zeta in Hcases.
    destruct (speed_body _ _ _ _ _ prev (Z.pos n) w) as [[e|m] w1] eqn:Hbody;
      [rewrite (bind_raise _ _ _ _ _ Hbody)|rewrite (bind_ok _ _ _ _ _ Hbody)];
      simpl in *.
    + destruct Hcases as [(? & ? & [=] & _)|(evs & e' & [= <-] & Hblock & Htr)].
      split; [done|]. exists evs. split; [done|]. by constructor.
    + destruct Hcases as [(evs & m' & [= <-] & Hblock & Htr)|(? & ? & [=] & _)].
      destruct (IH (Z.to_nat (maxSize + 1 - Z.pos (2 * n))) ltac:(lia)
                  m (2 * n)%positive w1 eq_refl Hgc1) as [Hgc2 (rest & Htr2 & Hrest)].
      split; [done|]. exists (evs ++ rest). split.
      * rewrite Htr2, Htr. by rewrite <- app_assoc.
      * destruct (speed_loop _ _ _ _ _ _ _ _ w1).1 as [e|[]];
          by econstructor.
  - split; [done|]. exists []. split; [by rewrite app_nil_r|].
    simpl. constructor. lia.
Qed.

(** A whole run: the seed, collection off, the sweep, and collection back on
    only if no call raised. *)
Lemma speed_run maxSize w :
  let res := speed seed_state next_random process_time mean stdev method maxSize w in
  exists evs,
    match res.1 with
    | inr _ =>
        sweep next_random mean stdev method maxSize 0%float 50%positive
          (seed_state 123456) evs /\
        w_trace res.2 = w_trace w ++ EvSeed 123456 :: EvGcDisable :: evs ++ [EvGcEnable] /\
        w_gc res.2 = true
    | inl e =>
        failed_sweep next_random mean stdev method maxSize 0%float 50%positive
          (seed_state 123456) evs e /\
        w_trace res.2 = w_trace w ++ EvSeed 123456 :: EvGcDisable :: evs /\
        w_gc res.2 = false
    end.
Proof.
  cbv zeta. unfold speed.
  set (w0 := World (seed_state 123456) (w_gc w) (w_clock w)
               (w_trace w ++ [EvSeed 123456])).
  set (w1 := World (seed_state 123456) false (w_clock w)
               ((w_trace w ++ [EvSeed 123456]) ++ [EvGcDisable])).
  rewrite (bind_ok (seed seed_state 123456) _ w tt w0 eq_refl).
  rewrite (bind_ok gc_disable _ w0 tt w1 eq_refl).
  destruct (speed_loop_run maxSize 0%float 50%positive w1 eq_refl)
    as [Hgc (evs & Htr & Hshape)]. cbv zeta in Hshape.
  exists evs.
  destruct (speed_loop _ _ _ _ _ maxSize _ _ w1) as [[e|[]] w2] eqn:Hloop;
    [rewrite (bind_raise _ _ _ _ _ Hloop)|rewrite (bind_ok _ _ _ _ _ Hloop)];
    simpl in *.
  - split; [done|]. split; [|done].
    rewrite Htr. rewrite <- !app_assoc. reflexivity.
  - split; [done|]. split; [|done].
    rewrite Htr. rewrite <- !app_assoc. reflexivity.
Qed.

End HarnessFacts.

(** ** Views of a sweep *)

Lemma sizes_from_S n count :
  sizes_from n (S count) = Z.pos n :: sizes_from (2 * n) count.
Proof.
  unfold sizes_from. simpl. f_equal; [lia|].
  rewrite <- seq_shift, map_map. apply map_ext. intros k.
  rewrite Nat2Z.inj_succ, Z.pow_succ_r by lia. lia.
Qed.

Section Views.
Context {rng R : Type}.
Variable next_random : rng -> float * rng.
Variables mean stdev : list float -> float.
Variable method : matrix -> list float -> exn float + R.

Lemma rounds_views n k g evs ds g' :
  rounds next_random method n k g evs ds g' ->
  printed evs = [] /\
  steps evs = concat (replicate k (round_steps n)) /\
  trials evs = (pair n <$> (instances next_random n k g).1) ≫= trial_steps /\
  calls evs = (instances next_random n k g).1 /\
  g' = (instances next_random n k g).2 /\
  Forall (fun Ab => returns method Ab.1 Ab.2) (calls evs).
Proof.
  induction 1 as [g|k g t0 t1 evs ds g' Hret _ (IHp & IHs & IHt & IHc & IHg & IHr)].
  - simpl. repeat split; constructor.
  - unfold printed, steps, trials, calls in *. rewrite !omap_app.
    rewrite IHp, IHs, IHt, IHc, IHg. simpl.
    destruct (generate next_random n g) as [[A b] g1]. simpl in *.
    repeat split; try reflexivity.
    constructor; [done|]. by rewrite <- IHc.
Qed.

Lemma block_views prev n g evs m g' :
  block next_random mean stdev method prev n g evs m g' ->
  printed evs = [(n, m, ratio prev m)] /\
  steps evs = block_steps n /\
  trials evs = (pair n <$> (instances next_random n 5 g).1) ≫= trial_steps /\
  calls evs = (instances next_random n 5 g).1 /\
  g' = (instances next_random n 5 g).2 /\
  Forall (fun Ab => returns method Ab.1 Ab.2) (calls evs).
Proof.
  intros [evs' ds g'' Hrounds].
  destruct (rounds_views _ _ _ _ _ _ Hrounds) as (Hp & Hs & Ht & Hc & Hg & Hr).
  unfold printed, steps, trials, calls in *.
  change (EvGcCollect :: ?l) with ([EvGcCollect] ++ l).
  rewrite !omap_app. rewrite Hp, Hs, Ht, Hc.
  split; [reflexivity|]. split; [reflexivity|].
  split; [apply app_nil_r|]. split; [apply app_nil_r|].
  split; [done|].
  rewrite !Forall_app. split; [constructor|]. split; [|constructor].
  by rewrite <- Hc.
Qed.

Lemma sweep_views maxSize prev n g evs :
  sweep next_random mean stdev method maxSize prev n g evs ->
  exists count,
    map (fun p => p.1.1) (printed evs) = sizes_from n count /\
    Forall (fun s => s <= maxSize) (sizes_from n count) /\
    maxSize < Z.pos n * 2 ^ Z.of_nat count /\
    ratios_from prev (printed evs) /\
    steps evs = sizes_from n count ≫= block_steps /\
    trials evs = sweep_instances next_random count n g ≫= trial_steps /\
    calls evs = (sweep_instances next_random count n g).*2 /\
    Forall (fun Ab => returns method Ab.1 Ab.2) (calls evs).
Proof.
  induction 1 as [prev n g Hgt
                 |prev n g evs m g' rest Hle Hblock _
                    (count & IHp & IHle & IHgt & IHr & IHs & IHt & IHc & IHret)].
  - exists 0%nat. simpl. repeat split; try constructor. lia.
  - destruct (block_views _ _ _ _ _ _ Hblock) as (Hp & Hs & Ht & Hc & -> & Hr).
    exists (S count). rewrite sizes_from_S.
    unfold printed, steps, trials, calls in *. rewrite !omap_app.
    rewrite Hp, Hs, Ht, Hc, IHs, IHt, IHc.
    split. { cbn [app map fst]. by rewrite IHp. }
    split. { by constructor. }
    split.
    { rewrite Nat2Z.inj_succ, Z.pow_succ_r by lia.
      replace (Z.pos n * (2 * 2 ^ Z.of_nat count))
        with (Z.pos (2 * n) * 2 ^ Z.of_nat count) by lia. done. }
    split. { cbn [app ratios_from]. split; [reflexivity|done]. }
    split. { by rewrite bind_cons. }
    split. { cbn [sweep_instances]. by rewrite bind_app. }
    split.
    { cbn [sweep_instances]. rewrite fmap_app, <- list_fmap_compose.
      rewrite <- (list_fmap_id (instances next_random (Z.pos n) 5 g).1) at 1.
      reflexivity. }
    apply Forall_app. split; [by rewrite <- Hc|by rewrite <- IHc].
Qed.

Lemma failed_block_views n g evs e :
  failed_block next_random method n g evs e ->
  printed evs = [] /\
  exists pre A b,
    evs = pre ++ [EvCall A b false] /\ method A b = inl e /\
    Forall (fun Ab => returns method Ab.1 Ab.2) (calls pre).
Proof.
  intros [k evs' ds g' t0 e' Hk Hrounds Hfail].
  destruct (rounds_views _ _ _ _ _ _ Hrounds) as (Hp & _ & _ & _ & _ & Hr).
  split.
  - unfold printed in *. simpl. rewrite omap_app, Hp. reflexivity.
  - exists (EvGcCollect :: evs'
            ++ [EvGcDisable;
                EvSetup n (generate next_random n g').1.1 (generate next_random n g').1.2;
                EvTimer t0]),
      (generate next_random n g').1.1, (generate next_random n g').1.2.
    split; [|split; [done|]].
    + unfold failed_round_events. simpl. by rewrite <- app_assoc.
    + unfold calls in *. simpl. rewrite omap_app. simpl. by rewrite app_nil_r.
Qed.

Lemma failed_sweep_views maxSize prev n g evs e :
  failed_sweep next_random mean stdev method maxSize prev n g evs e ->
  exists count pre A b,
    map (fun p => p.1.1) (printed evs) = sizes_from n count /\
    Forall (fun s => s <= maxSize) (sizes_from n (S count)) /\
    ratios_from prev (printed evs) /\
    evs = pre ++ [EvCall A b false] /\ method A b = inl e /\
    Forall (fun Ab => returns method Ab.1 Ab.2) (calls pre).
Proof.
  induction 1 as [prev n g evs e Hle Hblock
                 |prev n g evs m g' rest e Hle Hblock _
                    (count & pre & A & b & IHp & IHle & IHr & IHe & IHm & IHret)].
  - destruct (failed_block_views _ _ _ _ Hblock) as (Hp & pre & A & b & He & Hm & Hr).
    exists 0%nat, pre, A, b. rewrite Hp. simpl.
    repeat split; try done. constructor; [lia|constructor].
  - destruct (block_views _ _ _ _ _ _ Hblock) as (Hp & _ & _ & _ & _ & Hr).
    exists (S count), (evs ++ pre), A, b.
    rewrite (sizes_from_S n (S count)), (sizes_from_S n count).
    unfold printed, calls in *. rewrite !omap_app. rewrite Hp. simpl. rewrite IHp.
    split; [done|]. split; [by constructor|]. split; [done|]. split.
    { rewrite IHe. by rewrite app_assoc. }
    split; [done|]. by apply Forall_app.
Qed.

End Views.

(** ** The series of sizes *)

Lemma sizes_from_bound n count maxSize :
  Forall (fun s => s <= maxSize) (sizes_from n count) <->
  forall k, (k < count)%nat -> Z.pos n * 2 ^ Z.of_nat k <= maxSize.
Proof.
  unfold sizes_from. rewrite Forall_forall. split.
  - intros Hall k Hk. apply Hall, list_elem_of_In, in_map_iff.
    exists k. split; [done|]. apply in_seq. lia.
  - intros Hall s (k & <- & Hk%in_seq)%list_elem_of_In%in_map_iff.
    apply Hall. lia.
Qed.

(** [block_count] counts the sizes of the series that do not exceed
    [maxSize]. *)
Lemma block_count_spec maxSize k :
  50 * 2 ^ Z.of_nat k <= maxSize <-> (k < block_count maxSize)%nat.
Proof.
  unfold block_count.
  assert (Hpow : 1 <= 2 ^ Z.of_nat k) by (apply Z.pow_le_mono_r with (b := 0); lia).
  destruct (maxSize <? 50) eqn:E.
  - apply Z.ltb_lt in E. split; [lia|]. lia.
  - apply Z.ltb_ge in E.
    assert (Hq : 0 < maxSize / 50) by (apply Z.div_str_pos; lia).
    pose proof (Z.log2_le_pow2 (maxSize / 50) (Z.of_nat k) Hq) as Hlog.
    pose proof (Z.log2_nonneg (maxSize / 50)) as Hnn.
    pose proof (Z.mul_div_le maxSize 50 ltac:(lia)) as Hmd.
    split.
    + intros Hle. assert (2 ^ Z.of_nat k <= maxSize / 50).
      { apply Z.div_le_lower_bound; lia. }
      lia.
    + intros Hk. assert (2 ^ Z.of_nat k <= maxSize / 50) by (apply Hlog; lia). lia.
Qed.

Lemma block_count_unique maxSize count :
  Forall (fun s => s <= maxSize) (sizes_from 50 count) ->
  maxSize < 50 * 2 ^ Z.of_nat count ->
  count = block_count maxSize.
Proof.
  rewrite sizes_from_bound. intros Hle Hgt.
  destruct (Nat.lt_trichotomy count (block_count maxSize)) as [Hlt|[->|Hlt]]; [|done|].
  - apply block_count_spec in Hlt. lia.
  - specialize (Hle _ Hlt). apply block_count_spec in Hle. lia.
Qed.

Lemma block_count_bound maxSize count :
  Forall (fun s => s <= maxSize) (sizes_from 50 (S count)) ->
  (count < block_count maxSize)%nat.
Proof.
  rewrite sizes_from_bound. intros Hle.
  apply block_count_spec, (Hle count). lia.
Qed.

(** ** The measurement protocol *)

Lemma length_sizes_from n count : length (sizes_from n count) = count.
Proof. unfold sizes_from. by rewrite length_map, length_seq. Qed.

Lemma sweep_instances_sizes {rng} (next_random : rng -> float * rng) count n g :
  (sweep_instances next_random count n g).*1
  = sizes_from n count ≫= (fun s => replicate 5 s).
Proof.
  revert n g. induction count as [|count IH]; intros n g; [reflexivity|].
  rewrite sizes_from_S, bind_cons. cbn [sweep_instances].
  rewrite fmap_app, IH. f_equal.
Qed.

Section HarnessClaims.
Context {rng R : Type}.
Variable seed_state : Z -> rng.
Variable next_random : rng -> float * rng.
Variable process_time : nat -> float.
Variables mean stdev : list float -> float.
Variable method : matrix -> list float -> exn float + R.
Implicit Types (w : world rng).

Lemma printed_run evs tail :
  printed (EvSeed 123456 :: EvGcDisable :: evs ++ tail) = printed evs ++ printed tail.
Proof. unfold printed. simpl. by rewrite omap_app. Qed.

(** C5, as the code has it: a run prints one line for each of the sizes
    50, 100, 200, ... in turn; every size printed is at most [maxSize],
    and a run that returns stops at the first size above it.  Each line
    carries the ratio of its mean to the mean of the line before exactly
    when that earlier mean is positive; the first line, whose [prev] is
    0.0, never does. *)
Theorem speed_sizes_and_ratios maxSize w :
  let res := speed seed_state next_random process_time mean stdev method maxSize w in
  exists evs, w_trace res.2 = w_trace w ++ evs /\
    let ps := printed evs in
    map (fun p => p.1.1) ps = sizes_from 50 (length ps) /\
    Forall (fun s => s <= maxSize) (sizes_from 50 (length ps)) /\
    (res.1 = inr tt -> maxSize < 50 * 2 ^ Z.of_nat (length ps)) /\
    ratios_from 0%float ps.
Proof.
  cbv zeta. destruct (speed_run seed_state next_random process_time mean stdev
                        method maxSize w) as [evs Hrun]. cbv zeta in Hrun.
  destruct (speed _ _ _ _ _ _ maxSize w).1 as [e|[]].
  - destruct Hrun as (Hsweep & Htr & _).
    destruct (failed_sweep_views _ _ _ _ _ _ _ _ _ _ Hsweep)
      as (count & pre & A & b & Hsizes & Hle & Hratios & _).
    exists (EvSeed 123456 :: EvGcDisable :: evs). split; [done|].
    rewrite <- (app_nil_r evs), printed_run, app_nil_r.
    assert (Hlen : length (printed evs) = count).
    { apply (f_equal length) in Hsizes.
      by rewrite length_map, length_sizes_from in Hsizes. }
    rewrite Hlen. split; [done|]. split.
    { apply sizes_from_bound. intros k Hk.
      apply (proj1 (sizes_from_bound _ _ _) Hle). lia. }
    split; [done|done].
  - destruct Hrun as (Hsweep & Htr & _).
    destruct (sweep_views _ _ _ _ _ _ _ _ _ Hsweep)
      as (count & Hsizes & Hle & Hgt & Hratios & _).
    exists (EvSeed 123456 :: EvGcDisable :: evs ++ [EvGcEnable]). split; [done|].
    rewrite printed_run. simpl (printed [EvGcEnable]). rewrite app_nil_r.
    assert (Hlen : length (printed evs) = count).
    { apply (f_equal length) in Hsizes.
      by rewrite length_map, length_sizes_from in Hsizes. }
    rewrite Hlen. done.
Qed.

Lemma speed_complete maxSize w :
  let res := speed seed_state next_random process_time mean stdev method maxSize w in
  res.1 = inr tt ->
  exists evs,
    sweep next_random mean stdev method maxSize 0%float 50%positive
      (seed_state 123456) evs /\
    w_trace res.2 = w_trace w ++ EvSeed 123456 :: EvGcDisable :: evs ++ [EvGcEnable] /\
    w_gc res.2 = true.
Proof.
  cbv zeta. intros Hres.
  destruct (speed_run seed_state next_random process_time mean stdev
              method maxSize w) as [evs Hrun]. cbv zeta in Hrun.
  rewrite Hres in Hrun. by exists evs.
Qed.

(** C6, as the code has it: in a run that returns, every one of the five
    rounds of every size sets up an instance of its own, generated from
    the state the generator is in at that moment, and calls the solver
    once on that instance; the two readings of the timer enclose the call
    and nothing else, so the generation is not timed. *)
Theorem speed_instance_per_round maxSize w :
  let res := speed seed_state next_random process_time mean stdev method maxSize w in
  res.1 = inr tt ->
  exists evs, w_trace res.2 = w_trace w ++ evs /\
    let insts := sweep_instances next_random (block_count maxSize) 50
                   (seed_state 123456) in
    trials evs = insts ≫= trial_steps /\
    insts.*1 = sizes_from 50 (block_count maxSize) ≫= (fun s => replicate 5 s).
Proof.
  cbv zeta. intros Hres.
  destruct (speed_complete maxSize w Hres) as (evs & Hsweep & Htr & _).
  destruct (sweep_views _ _ _ _ _ _ _ _ _ Hsweep)
    as (count & _ & Hle & Hgt & _ & _ & Htrials & _).
  rewrite (block_count_unique _ _ Hle Hgt) in Htrials.
  exists (EvSeed 123456 :: EvGcDisable :: evs ++ [EvGcEnable]). split; [done|].
  split; [|apply sweep_instances_sizes].
  unfold trials in *. simpl. rewrite omap_app, Htrials. simpl. apply app_nil_r.
Qed.

(** C8, as the code has it: a run that returns switches automatic
    collection off once at the start and on again once after the last
    size; in between, each size starts with one forced collection, made
    before the first of its five rounds and outside every timed window,
    and each round switches collection off again (it already is) before
    its set-up, so that every call of the solver runs with collection
    off. *)
Theorem speed_collection_protocol maxSize w :
  let res := speed seed_state next_random process_time mean stdev method maxSize w in
  res.1 = inr tt ->
  exists evs, w_trace res.2 = w_trace w ++ evs /\
    steps evs
    = StDisable :: (sizes_from 50 (block_count maxSize) ≫= block_steps) ++ [StEnable] /\
    w_gc res.2 = true.
Proof.
  cbv zeta. intros Hres.
  destruct (speed_complete maxSize w Hres) as (evs & Hsweep & Htr & Hgc).
  destruct (sweep_views _ _ _ _ _ _ _ _ _ Hsweep)
    as (count & _ & Hle & Hgt & _ & Hsteps & _).
  rewrite (block_count_unique _ _ Hle Hgt) in Hsteps.
  exists (EvSeed 123456 :: EvGcDisable :: evs ++ [EvGcEnable]). split; [done|].
  split; [|done].
  unfold steps in *. simpl. by rewrite omap_app, Hsteps.
Qed.

(** C9, as the code has it: when a call of the solver raises, the run
    stops at that call and the caller of [speed] gets the solver's own
    exception; nothing is added to it and nothing is printed after it, so
    neither the size nor the seed is reported, and automatic collection
    stays off.  A run that returns had no failing call. *)
Theorem speed_propagates_failure maxSize w :
  let res := speed seed_state next_random process_time mean stdev method maxSize w in
  exists evs, w_trace res.2 = w_trace w ++ evs /\
    match res.1 with
    | inl e =>
        exists pre A b,
          evs = pre ++ [EvCall A b false] /\ method A b = inl e /\
          Forall (fun Ab => returns method Ab.1 Ab.2) (calls pre) /\
          w_gc res.2 = false
    | inr _ => Forall (fun Ab => returns method Ab.1 Ab.2) (calls evs)
    end.
Proof.
  cbv zeta. destruct (speed_run seed_state next_random process_time mean stdev
                        method maxSize w) as [evs Hrun]. cbv zeta in Hrun.
  destruct (speed _ _ _ _ _ _ maxSize w).1 as [e|[]].
  - destruct Hrun as (Hsweep & Htr & Hgc).
    destruct (failed_sweep_views _ _ _ _ _ _ _ _ _ _ Hsweep)
      as (count & pre & A & b & _ & _ & _ & Hevs & Hm & Hret).
    exists (EvSeed 123456 :: EvGcDisable :: evs). split; [done|].
    exists (EvSeed 123456 :: EvGcDisable :: pre), A, b.
    split; [by rewrite Hevs|]. split; [done|]. split; [done|done].
  - destruct Hrun as (Hsweep & Htr & _).
    destruct (sweep_views _ _ _ _ _ _ _ _ _ Hsweep)
      as (count & _ & _ & _ & _ & _ & _ & _ & Hret).
    exists (EvSeed 123456 :: EvGcDisable :: evs ++ [EvGcEnable]). split; [done|].
    unfold calls in *. simpl. rewrite omap_app. simpl. by rewrite app_nil_r.
Qed.

(** The instances a run that returns hands to the solver do not depend on
    the solver, the clock or the statistics. *)
Lemma speed_instances maxSize w :
  let res := speed seed_state next_random process_time mean stdev method maxSize w in
  res.1 = inr tt ->
  exists evs, w_trace res.2 = w_trace w ++ evs /\
    calls evs
    = (sweep_instances next_random (block_count maxSize) 50 (seed_state 123456)).*2.
Proof.
  cbv zeta. intros Hres.
  destruct (speed_complete maxSize w Hres) as (evs & Hsweep & Htr & _).
  destruct (sweep_views _ _ _ _ _ _ _ _ _ Hsweep)
    as (count & _ & Hle & Hgt & _ & _ & _ & Hcalls & _).
  rewrite (block_count_unique _ _ Hle Hgt) in Hcalls.
  exists (EvSeed 123456 :: EvGcDisable :: evs ++ [EvGcEnable]). split; [done|].
  unfold calls in *. simpl. rewrite omap_app, Hcalls. simpl. apply app_nil_r.
Qed.

End HarnessClaims.

(** ** Generated instances *)

Section GeneratorClaims.
Context {rng : Type} (seed_state : Z -> rng) (next_random : rng -> float * rng).
Implicit Types (w : world rng) (g : rng).

Lemma generate_dense n g :
  0 <= n ->
  dense (generate next_random n g).1.1 n /\
  Z.of_nat (length (generate next_random n g).1.2) = n.
Proof.
  intros Hn. unfold generate.
  pose proof (length_draw next_random (length (index_pairs (range n))) g) as Hvs.
  destruct (draw next_random (length (index_pairs (range n))) g) as [vs g1].
  pose proof (length_draw next_random (length (range n)) g1) as Hb.
  destruct (draw next_random (length (range n)) g1) as [b g2]. simpl in *.
  assert (Hkeys : (zip (index_pairs (range n)) vs).*1 = index_pairs (range n)).
  { apply fst_zip. lia. }
  assert (Hnd : NoDup (zip (index_pairs (range n)) vs).*1).
  { rewrite Hkeys. apply NoDup_index_pairs, NoDup_seqZ. }
  assert (Hrange : length (range n) = Z.to_nat n) by apply length_seqZ.
  split; [split|].
  - rewrite py_dict_size by done.
    rewrite <- (length_fmap fst), Hkeys, length_index_pairs, Hrange. lia.
  - intros i j Hi Hj. apply py_dict_keys; [done|].
    rewrite Hkeys. by apply in_index_pairs.
  - rewrite Hb, Hrange. lia.
Qed.

(** C10: for n > 0, [randProb n] returns a dictionary with exactly n²
    entries, one for every index pair below n, and a list of length n, so
    the instance meets what the solver requires of its arguments; for
    n ≤ 0 it raises the assertion error instead, and draws nothing. *)
Theorem randProb_dense n w :
  (0 < n ->
   exists A b w',
     randProb next_random n w = (inr (A, b), w') /\
     Z.of_nat (size A) = n * n /\
     (forall i j, 0 <= i < n -> 0 <= j < n -> is_Some (A !! (i, j))) /\
     Z.of_nat (length b) = n /\
     dense A (Z.of_nat (length b)) /\ 0 < Z.of_nat (length b)) /\
  (n <= 0 -> randProb next_random n w = (inl (AssertionError NoMessage), w)).
Proof.
  split; [|apply randProb_rejects].
  intros Hn. rewrite randProb_run by done.
  destruct (generate_dense n (w_rng w) ltac:(lia)) as [[Hsize Hall] Hlen].
  destruct (generate next_random n (w_rng w)) as [[A b] g']. simpl in *.
  exists A, b, (set_rng g' w). rewrite Hlen. repeat split; auto; lia.
Qed.

(** C4: seeding the generator with [X] and then generating an instance of
    size [n] gives the same matrix and vector whatever the world was
    before; and the instances that two runs of [speed] hand to their
    solvers are the same, whatever the solvers, the clocks and the
    statistics, when both runs return. *)
Theorem seeded_generation_deterministic n X w1 w2 :
  ((do_ seed seed_state X; randProb next_random n) w1).1
  = ((do_ seed seed_state X; randProb next_random n) w2).1 /\
  forall R1 R2 clock1 clock2 mean1 stdev1 mean2 stdev2
         (method1 : matrix -> list float -> exn float + R1)
         (method2 : matrix -> list float -> exn float + R2) maxSize,
    let res1 := speed seed_state next_random clock1 mean1 stdev1 method1 maxSize w1 in
    let res2 := speed seed_state next_random clock2 mean2 stdev2 method2 maxSize w2 in
    res1.1 = inr tt -> res2.1 = inr tt ->
    exists evs1 evs2,
      w_trace res1.2 = w_trace w1 ++ evs1 /\
      w_trace res2.2 = w_trace w2 ++ evs2 /\
      calls evs1 = calls evs2.
Proof.
  split.
  - assert (Hrun : forall w,
               ((do_ seed seed_state X; randProb next_random n) w).1
               = if decide (0 < n)
                 then inr (generate next_random n (seed_state X)).1
                 else inl (AssertionError NoMessage)).
    { intros w.
      rewrite (bind_ok (seed seed_state X) _ w tt
                 (World (seed_state X) (w_gc w) (w_clock w)
                    (w_trace w ++ [EvSeed X])) eq_refl).
      destruct (decide (0 < n)).
      - by rewrite randProb_run.
      - by rewrite randProb_rejects by lia. }
    by rewrite !Hrun.
  - intros R1 R2 clock1 clock2 mean1 stdev1 mean2 stdev2 method1 method2 maxSize
      res1 res2 Hres1 Hres2.
    destruct (speed_instances seed_state next_random clock1 mean1 stdev1 method1
                maxSize w1 Hres1) as (evs1 & Htr1 & Hcalls1).
    destruct (speed_instances seed_state next_random clock2 mean2 stdev2 method2
                maxSize w2 Hres2) as (evs2 & Htr2 & Hcalls2).
    exists evs1, evs2. split; [done|]. split; [done|]. congruence.
Qed.

End GeneratorClaims.

(** ** The C++ routine *)

Module CppFacts.
Import Cpp.

Lemma zero_is_zero p : is_zero p = true -> exists s, Prim2SF p = S754_zero s.
Proof.
  unfold is_zero. rewrite FloatAxioms.eqb_spec.
  change (Prim2SF 0%float) with (S754_zero false).
  destruct (Prim2SF p) as [s|s| |s m e]; try destruct s;
    unfold SFeqb; simpl; try discriminate; eauto.
Qed.

(** Whatever is divided by a zero, the quotient is an infinity or a NaN. *)
Lemma div_by_zero_not_finite v p : is_zero p = true -> finite (PrimFloat.div v p) = false.
Proof.
  intros [s Hp]%zero_is_zero. unfold finite.
  rewrite FloatAxioms.div_spec, Hp. unfold SF64div.
  destruct (Prim2SF v); reflexivity.
Qed.

Lemma vget_insert_eq (x : list float) i v :
  (i < length x)%nat -> vget (<[i := v]> x) i = v.
Proof.
  intros Hi. unfold vget. rewrite nth_lookup.
  by rewrite list_lookup_insert_eq.
Qed.

Lemma vget_insert_ne (x : list float) i j v :
  i <> j -> vget (<[i := v]> x) j = vget x j.
Proof.
  intros Hne. unfold vget. rewrite !nth_lookup.
  by rewrite list_lookup_insert_ne.
Qed.

Lemma row_mset_other (U : list (list float)) j k v r :
  r <> j -> nth r (mset U j k v) [] = nth r U [].
Proof.
  intros Hne. unfold mset. rewrite !nth_lookup.
  by rewrite list_lookup_insert_ne.
Qed.

Lemma inner_reduction_other (U : list (list float)) i j mult (ks : list nat) r :
  r <> j ->
  nth r (fold_left (fun U k =>
           mset U j k (PrimFloat.sub (mget U j k) (PrimFloat.mul mult (mget U i k))))
           ks U) []
  = nth r U [].
Proof.
  intros Hne. revert U. induction ks as [|k ks IH]; intros U; [reflexivity|].
  cbn [fold_left]. by rewrite IH, row_mset_other.
Qed.

(** Eliminating below row [i] leaves the rows up to [i] as they are. *)
Lemma eliminate_row_above n (U : list (list float)) i r :
  (r <= i)%nat -> nth r (eliminate n U i) [] = nth r U [].
Proof.
  intros Hr. unfold eliminate, for_loop.
  assert (Hrows : Forall (fun j => r <> j) (seq (i + 1) (n - (i + 1)))).
  { apply Forall_forall. intros j Hj%list_elem_of_In%in_seq. lia. }
  revert U. induction Hrows as [|j js Hj _ IH]; intros U; [reflexivity|].
  cbn [fold_left]. rewrite IH. cbv zeta.
  by rewrite inner_reduction_other, row_mset_other.
Qed.

(** The pivot met at row [i] is still on the diagonal when the reduction is
    over: the later steps write below row [i] only. *)
Lemma pivot_reduced n A b i :
  (i < n)%nat -> mget (reduced n A b) i i = pivot n A b i.
Proof.
  intros Hi. unfold reduced, row_reduction, pivot, for_loop.
  replace (n - 0)%nat with (i + (n - i))%nat by lia.
  rewrite Nat.sub_0_r, seq_app, fold_left_app. cbn [Nat.add].
  generalize (fold_left (eliminate n) (seq 0 i) (copy_input n A b)) as U.
  assert (Hrows : Forall (fun i' => (i <= i')%nat) (seq i (n - i))).
  { apply Forall_forall. intros i' Hi'%list_elem_of_In%in_seq. lia. }
  induction Hrows as [|i' is' Hi' _ IH]; intros U; [reflexivity|].
  cbn [fold_left]. rewrite IH. unfold mget.
  by rewrite eliminate_row_above.
Qed.

Section BackSubstitution.
Variables (n : nat) (U : list (list float)).

Local Abbreviation solve_row := (Cpp.solve_row n U).

Lemma back_substitution_fold x :
  back_substitution n U x = fold_left solve_row (reverse (seq 0 n)) x.
Proof. reflexivity. Qed.

Lemma inner_loop_length i (js : list nat) x :
  length (fold_left (fun x j =>
            <[i := PrimFloat.sub (vget x i) (PrimFloat.mul (mget U i j) (vget x j))]> x)
            js x) = length x.
Proof.
  revert x. induction js as [|j js IH]; intros x; [reflexivity|].
  simpl. by rewrite IH, length_insert.
Qed.

Lemma inner_loop_other i (js : list nat) x k :
  i <> k ->
  vget (fold_left (fun x j =>
          <[i := PrimFloat.sub (vget x i) (PrimFloat.mul (mget U i j) (vget x j))]> x)
          js x) k = vget x k.
Proof.
  intros Hne. revert x. induction js as [|j js IH]; intros x; [reflexivity|].
  simpl. by rewrite IH, vget_insert_ne.
Qed.

Lemma solve_row_length x i : length (solve_row x i) = length x.
Proof.
  unfold solve_row, for_loop.
  by rewrite length_insert, inner_loop_length, length_insert.
Qed.

Lemma solve_row_other x i k : i <> k -> vget (solve_row x i) k = vget x k.
Proof.
  intros Hne. unfold solve_row, for_loop.
  by rewrite vget_insert_ne, inner_loop_other, vget_insert_ne.
Qed.

Lemma solve_row_self x i :
  (i < length x)%nat ->
  exists v, vget (solve_row x i) i = PrimFloat.div v (mget U i i).
Proof.
  intros Hi. unfold solve_row, for_loop. eexists.
  rewrite vget_insert_eq; [reflexivity|].
  by rewrite inner_loop_length, length_insert.
Qed.

Lemma solve_rows_length (l : list nat) x :
  length (fold_left solve_row l x) = length x.
Proof.
  revert x. induction l as [|i l IH]; intros x; [reflexivity|].
  simpl. by rewrite IH, solve_row_length.
Qed.

Lemma solve_rows_other (l : list nat) x k :
  k ∉ l -> vget (fold_left solve_row l x) k = vget x k.
Proof.
  revert x. induction l as [|i l IH]; intros x Hk; [reflexivity|].
  simpl. rewrite IH by set_solver. apply solve_row_other. set_solver.
Qed.

(** The entry of every row the loop visits is, at the end, a quotient by
    that row's diagonal entry. *)
Lemma solve_rows_quotient (l : list nat) x k :
  NoDup l -> k ∈ l -> (k < length x)%nat ->
  exists v, vget (fold_left solve_row l x) k = PrimFloat.div v (mget U k k).
Proof.
  revert x. induction l as [|i l IH]; intros x Hnd Hk Hlen.
  - by apply elem_of_nil in Hk.
  - apply NoDup_cons in Hnd as [Hi Hnd]. simpl.
    apply elem_of_cons in Hk as [->|Hk].
    + rewrite solve_rows_other by done. by apply solve_row_self.
    + apply IH; [done|done|]. by rewrite solve_row_length.
Qed.

End BackSubstitution.

Lemma gauss_quotient n A b x i :
  (i < n)%nat -> (n <= length x)%nat ->
  exists v, vget (gauss n A b x).1 i = PrimFloat.div v (mget (reduced n A b) i i).
Proof.
  intros Hi Hn. unfold gauss. cbv zeta. cbn [fst].
  rewrite back_substitution_fold. apply solve_rows_quotient.
  - rewrite reverse_Permutation. apply NoDup_seq.
  - apply elem_of_reverse, list_elem_of_In, in_seq. lia.
  - lia.
Qed.

Lemma gauss_length n A b x : length (gauss n A b x).1 = length x.
Proof.
  unfold gauss. cbv zeta. cbn [fst].
  rewrite back_substitution_fold. apply solve_rows_length.
Qed.

End CppFacts.

(** ** Row by row

    Python's [max] keeps its first item and replaces it by every later item
    that compares greater.  A maximum below the tolerance bounds the first
    row and every row that is ordered; a row after the first whose residual
    is unordered, a NaN, is passed over. *)

Section Rows.
Context {F : Type} `{NanOrder F}.

Lemma fold_max_below (l : list F) (m0 : F) :
  lt_tol (fold_left (fun m r => if gt r m then r else m) l m0) = true ->
  lt_tol m0 = true /\ Forall (fun r => lt_tol r = true \/ unordered r = true) l.
Proof.
  revert m0. induction l as [|r l IH]; intros m0 Hmax; [by split|].
  simpl in Hmax. apply IH in Hmax as [Hstep Hrest].
  destruct (gt r m0) eqn:Hgt.
  - split; [by apply (gt_below r m0)|]. constructor; [by left|done].
  - split; [done|]. constructor; [by apply (le_below r m0)|done].
Qed.

Lemma fold_max_accepts (l : list F) (m0 : F) :
  lt_tol m0 = true -> Forall (fun r => lt_tol r = true \/ unordered r = true) l ->
  lt_tol (fold_left (fun m r => if gt r m then r else m) l m0) = true.
Proof.
  intros Hm Hl. revert m0 Hm.
  induction Hl as [|r l Hr _ IH]; intros m0 Hm; [done|].
  simpl. apply IH. destruct (gt r m0) eqn:Hgt; [|done].
  destruct Hr as [Hr|Hr]; [done|]. by rewrite (gt_ordered r m0 Hgt) in Hr.
Qed.

Lemma fold_max_elem (l : list F) (m0 : F) :
  fold_left (fun m r => if gt r m then r else m) l m0 ∈ m0 :: l.
Proof.
  revert m0. induction l as [|r l IH]; intros m0; [by left|].
  simpl. specialize (IH (if gt r m0 then r else m0)).
  apply elem_of_cons in IH as [->|Hin].
  - destruct (gt r m0); [right; by left|by left].
  - by do 2 right.
Qed.

(** The sum of Python is the sum of the description. *)
Lemma sigma_sum (t : nat -> F) (k : nat) (init : F) :
  fold_left add (map t (seq 0 k)) init = sigma init t k.
Proof.
  induction k as [|k IH]; [reflexivity|].
  rewrite seq_S, map_app, fold_left_app. cbn. by rewrite IH.
Qed.

Lemma row_residual_spec (A : gmap (Z * Z) F) (x b : list F) (n i : Z) :
  row_residual A x b n i = residual A x b n i.
Proof.
  unfold row_residual, residual, pysum, range, seqZ. rewrite <- sigma_sum.
  do 3 f_equal. rewrite <- list_fmap_compose. apply map_ext. intros j.
  cbn. by rewrite Z.add_0_r.
Qed.

(** What the test [max(...) < 1e-5] says of the rows. *)
Lemma checked_rows (A : gmap (Z * Z) F) (x b : list F) (n : Z) (error : F) :
  0 < n -> pymax (row_residuals A x b n) = inr error ->
  (lt_tol error = true <->
   lt_tol (residual A x b n 0) = true /\
   forall i, 0 <= i < n ->
     lt_tol (residual A x b n i) = true \/ unordered (residual A x b n i) = true) /\
  exists i, 0 <= i < n /\ error = residual A x b n i.
Proof.
  intros Hn.
  assert (Hlist : row_residuals A x b n
                  = residual A x b n 0 :: map (residual A x b n) (seqZ 1 (n - 1))).
  { unfold row_residuals, range. rewrite (seqZ_cons 0 n) by lia. cbn [map].
    rewrite row_residual_spec. f_equal.
    replace (Z.succ 0) with 1 by lia. replace (Z.pred n) with (n - 1) by lia.
    apply map_ext. intros i. apply row_residual_spec. }
  rewrite Hlist. cbn [pymax]. intros [= <-].
  set (rest := map (residual A x b n) (seqZ 1 (n - 1))).
  assert (Hrest : forall P : F -> Prop,
            Forall P rest <-> forall i, 1 <= i < n -> P (residual A x b n i)).
  { intros P. unfold rest. rewrite Forall_forall. split.
    - intros Hall i Hi. apply Hall, list_elem_of_In, in_map, list_elem_of_In.
      apply elem_of_seqZ. lia.
    - intros Hall r (i & <- & Hi%list_elem_of_In%elem_of_seqZ)%list_elem_of_In%in_map_iff.
      apply Hall. lia. }
  split; [split|].
  - intros [Hfirst Hall]%fold_max_below. split; [done|].
    intros i Hi. destruct (decide (i = 0)) as [->|Hne]; [by left|].
    apply (proj1 (Hrest _) Hall). lia.
  - intros [Hfirst Hall]. apply fold_max_accepts; [done|].
    apply Hrest. intros i Hi. apply Hall. lia.
  - pose proof (fold_max_elem rest (residual A x b n 0)) as Hin.
    apply elem_of_cons in Hin as [Heq|Hin]; [exists 0; split; [lia|exact Heq]|].
    unfold rest in Hin.
    apply list_elem_of_In, in_map_iff in Hin as (i & Heq & Hi%list_elem_of_In%elem_of_seqZ).
    exists i. split; [lia|exact (eq_sym Heq)].
Qed.

End Rows.

(** ** Zero pivots *)

(** C2, as the code has it: the solver has no failure for a singular matrix
    and no sentinel.  [gauss] makes no test on a pivot: when the pivot
    [U[i][i]] it meets at row [i] is zero it still runs to the end, leaves as
    many entries in [x] as there were, and [x[i]], the quotient by that
    pivot, is an infinity or a NaN.  [gaussSimple] as it stands does no
    elimination: on a dense matrix and a non-empty vector it hands back a
    copy of [b], or raises the assertion "Incorrect solution". *)
Theorem gauss_divides_by_zero_pivot n A b x i :
  (i < n)%nat -> (n <= length x)%nat ->
  Cpp.is_zero (Cpp.pivot n A b i) = true ->
  length (Cpp.gauss n A b x).1 = length x /\
  Cpp.finite (Cpp.vget (Cpp.gauss n A b x).1 i) = false /\
  forall F (num : PyNum F) (h : gmap loc (obj F)) a lb (A' : gmap (Z * Z) F) (b' : list F),
    h !! a = Some (PyDict A') -> h !! lb = Some (PyList b') ->
    0 < Z.of_nat (length b') -> dense A' (Z.of_nat (length b')) ->
    outcome (gaussSimple a lb h) = inr b' \/
    exists error, outcome (gaussSimple a lb h) = inl (AssertionError (IncorrectSolution error)).
Proof.
  intros Hi Hn Hzero. split; [apply CppFacts.gauss_length|]. split.
  - destruct (CppFacts.gauss_quotient n A b x i Hi Hn) as [v ->].
    apply CppFacts.div_by_zero_not_finite.
    by rewrite CppFacts.pivot_reduced.
  - intros F num h a lb A' b' Ha Hb Hlen Hdense.
    rewrite (gaussSimple_outcome h a lb A' b' Ha Hb). cbv zeta.
    destruct (dense_checks _ _ Hdense) as [-> ->]. simpl.
    destruct (pymax_nonempty _ (row_residuals_nonempty A' b' b' _ Hlen)) as [error ->].
    destruct (lt_tol error); eauto.
Qed.

Lemma gauss_divides_by_zero_pivot_witness :
  length (Cpp.gauss 2 swap_rows [1%float; 1%float] [0%float; 0%float]).1 = 2%nat /\
  Cpp.finite
    (Cpp.vget (Cpp.gauss 2 swap_rows [1%float; 1%float] [0%float; 0%float]).1 0) = false.
Proof.
  pose proof (gauss_divides_by_zero_pivot 2 swap_rows [1%float; 1%float]
                [0%float; 0%float] 0 ltac:(lia) ltac:(simpl; lia) eq_refl)
    as (Hlen & Hfin & _).
  split; [exact Hlen|exact Hfin].
Defined.

(** On [A = [[0,1],[1,0]]], [b = [1,1]] the first pivot is zero; [gauss]
    returns NaNs and reports an error of 0, and [gaussSimple] returns
    [[1,1]]: neither fails, neither returns a sentinel. *)
Lemma zero_pivot_goes_unreported :
  Cpp.is_zero (Cpp.pivot 2 swap_rows [1%float; 1%float] 0) = true /\
  Cpp.gauss 2 swap_rows [1%float; 1%float] [0%float; 0%float]
  = ([nan; nan], 0%float) /\
  outcome (gaussSimple 1%positive 2%positive swap_store) = inr [1%float; 1%float].
Proof. vm_compute. repeat split. Qed.

(** ** Instances of the theorems, and where the description departs from the code *)

Lemma gaussSimple_dimension_error_witness :
  gaussSimple 1%positive 2%positive int_store_mismatch
  = (inl (AssertionError WrongSize), int_store_mismatch).
Proof.
  assert (Hnot : ~ dense (<[(0, 0) := 1]> ∅ : gmap (Z * Z) Z) (Z.of_nat (length [0; 0]))).
  { intros [Hsize _]. vm_compute in Hsize. discriminate. }
  exact (gaussSimple_dimension_error int_store_mismatch 1%positive 2%positive
           (<[(0, 0) := 1]> ∅) [0; 0] eq_refl eq_refl Hnot).
Defined.

Lemma gaussSimple_frame_witness :
  (gaussSimple 1%positive 2%positive int_store).2 !! 1%positive
  = Some (PyDict (<[(0, 0) := 1]> ∅)) /\
  (gaussSimple 1%positive 2%positive int_store).2 !! 2%positive = Some (PyList [0]) /\
  outcome (gaussSimple 1%positive 2%positive
             (gaussSimple 1%positive 2%positive int_store).2)
  = outcome (gaussSimple 1%positive 2%positive int_store).
Proof.
  pose proof (gaussSimple_frame int_store 1%positive 2%positive (<[(0, 0) := 1]> ∅) [0]
                eq_refl eq_refl) as (_ & HA & Hb & _ & Hsame).
  split; [exact HA|]. split; [exact Hb|exact Hsame].
Defined.

Lemma randProb_dense_witness :
  exists A b w',
    randProb lcg_next 2 fresh_world = (inr (A, b), w') /\
    Z.of_nat (size A) = 2 * 2 /\
    (forall i j, 0 <= i < 2 -> 0 <= j < 2 -> is_Some (A !! (i, j))) /\
    Z.of_nat (length b) = 2 /\
    dense A (Z.of_nat (length b)) /\ 0 < Z.of_nat (length b).
Proof.
  apply (proj1 (randProb_dense lcg_next 2 fresh_world)). lia.
Defined.

Lemma speed_instance_per_round_witness :
  quick_run.1 = inr tt /\
  exists evs, w_trace quick_run.2 = w_trace fresh_world ++ evs /\
    trials evs
    = sweep_instances lcg_next (block_count 50) 50 (lcg_seed 123456) ≫= trial_steps /\
    (sweep_instances lcg_next (block_count 50) 50 (lcg_seed 123456)).*1
    = sizes_from 50 (block_count 50) ≫= (fun s => replicate 5 s).
Proof.
  assert (Hret : quick_run.1 = inr tt) by (vm_compute; reflexivity).
  split; [exact Hret|].
  exact (speed_instance_per_round lcg_seed lcg_next ticking_clock float_mean
           float_stdev instant_solver 50 fresh_world Hret).
Defined.

Lemma speed_collection_protocol_witness :
  quick_run.1 = inr tt /\
  exists evs, w_trace quick_run.2 = w_trace fresh_world ++ evs /\
    steps evs = StDisable :: (sizes_from 50 (block_count 50) ≫= block_steps) ++ [StEnable] /\
    w_gc quick_run.2 = true.
Proof.
  assert (Hret : quick_run.1 = inr tt) by (vm_compute; reflexivity).
  split; [exact Hret|].
  exact (speed_collection_protocol lcg_seed lcg_next ticking_clock float_mean
           float_stdev instant_solver 50 fresh_world Hret).
Defined.

Lemma seeded_generation_deterministic_witness :
  ((do_ seed lcg_seed 42; randProb lcg_next 100) fresh_world).1
  = ((do_ seed lcg_seed 42; randProb lcg_next 100) (World 7 false 3%nat [EvGcCollect])).1 /\
  exists evs1 evs2,
    w_trace quick_run.2 = w_trace fresh_world ++ evs1 /\
    w_trace still_run.2 = [EvGcCollect] ++ evs2 /\
    calls evs1 = calls evs2.
Proof.
  pose proof (seeded_generation_deterministic lcg_seed lcg_next 100 42 fresh_world
                (World 7 false 3%nat [EvGcCollect])) as [Hsame Hruns].
  split; [exact Hsame|].
  apply (Hruns unit unit ticking_clock frozen_clock float_mean float_stdev
           float_mean float_stdev instant_solver instant_solver 50).
  - vm_compute. reflexivity.
  - vm_compute. reflexivity.
Defined.

Lemma speed_sizes_and_ratios_witness :
  quick_run.1 = inr tt /\
  exists evs, w_trace quick_run.2 = w_trace fresh_world ++ evs /\
    map (fun p => p.1.1) (printed evs) = sizes_from 50 (length (printed evs)) /\
    Forall (fun s => s <= 50) (sizes_from 50 (length (printed evs))) /\
    50 < 50 * 2 ^ Z.of_nat (length (printed evs)) /\
    ratios_from 0%float (printed evs).
Proof.
  assert (Hret : quick_run.1 = inr tt) by (vm_compute; reflexivity).
  split; [exact Hret|].
  destruct (speed_sizes_and_ratios lcg_seed lcg_next ticking_clock float_mean
              float_stdev instant_solver 50 fresh_world)
    as (evs & Htr & Hsizes & Hle & Hstop & Hratios).
  exists evs. split; [exact Htr|]. split; [exact Hsizes|]. split; [exact Hle|].
  split; [exact (Hstop Hret)|exact Hratios].
Defined.

(** With a clock that does not move, the mean for size 50 is 0.0 and the
    line for size 100, which is not the first, carries no ratio. *)
Lemma frozen_clock_prints_no_ratio :
  frozen_run.1 = inr tt /\
  printed (w_trace frozen_run.2) = [(50, 0%float, None); (100, 0%float, None)].
Proof. vm_compute. split; reflexivity. Qed.

(** The run for the single size 50 sets up five instances, not one, and the
    first two already differ in their first entries. *)
Lemma five_instances_for_one_size :
  omap (fun t => match t with TrSetup n _ _ => Some n | _ => None end)
    (trials (w_trace quick_run.2)) = [50; 50; 50; 50; 50] /\
  map (fun Ab => (Ab.1 !! (0, 0), Ab.2 !! 0%nat)) (take 2 (calls (w_trace quick_run.2)))
  = [(Some 0.5615234375%float, Some 0.4345703125%float);
     (Some 0.482421875%float, Some 0.4912109375%float)].
Proof. vm_compute. split; reflexivity. Qed.

(** The same run forces one collection, before the first of its five
    rounds, and none before the other four. *)
Lemma one_collection_for_five_rounds :
  steps (w_trace quick_run.2)
  = [StDisable; StCollect;
     StDisable; StSetup 50; StTimer; StCall false; StTimer;
     StDisable; StSetup 50; StTimer; StCall false; StTimer;
     StDisable; StSetup 50; StTimer; StCall false; StTimer;
     StDisable; StSetup 50; StTimer; StCall false; StTimer;
     StDisable; StSetup 50; StTimer; StCall false; StTimer;
     StPrint 50; StEnable].
Proof. vm_compute. reflexivity. Qed.

(** [speed(gaussSimple)] on the skeleton: the first call raises the residual
    assertion, and the caller of [speed] gets that exception as it is; the
    run ends at the call, prints nothing, and leaves collection off. *)
Lemma failure_is_not_annotated :
  failing_run.1 = inl (AssertionError (IncorrectSolution 0x1.d513c8p+3%float)) /\
  printed (w_trace failing_run.2) = [] /\
  steps (w_trace failing_run.2)
  = [StDisable; StCollect; StDisable; StSetup 50; StTimer; StCall false] /\
  w_gc failing_run.2 = false.
Proof. vm_compute. repeat split. Qed.

(** * Further properties

    What the loops of [gauss] establish, the behaviour of [gaussSimple] and
    [randProb] at the edges of their inputs, and what a run of [speed]
    reports. *)

(** ** Arrays written in a loop *)

Module CppLoops.
Import Cpp.

Lemma fill_prefix {A} (f : nat -> A) (m : nat) (l : list A) :
  (m <= length l)%nat ->
  fold_left (fun l j => <[j := f j]> l) (seq 0 m) l = map f (seq 0 m) ++ drop m l.
Proof.
  revert l. induction m as [|m IH]; intros l Hm.
  - by rewrite drop_0.
  - rewrite seq_S, fold_left_app, map_app. cbn [fold_left map Nat.add].
    rewrite IH by lia. rewrite <- app_assoc.
    rewrite insert_app_r_alt by (rewrite length_map, length_seq; lia).
    rewrite length_map, length_seq, Nat.sub_diag.
    destruct (drop m l) as [|y tl] eqn:Hd.
    { apply (f_equal length) in Hd. rewrite length_drop in Hd. simpl in Hd. lia. }
    simpl. f_equal. f_equal.
    change tl with (drop 1 (y :: tl)). rewrite <- Hd, drop_drop. f_equal. lia.
Qed.

Lemma nth_row (U : list (list float)) i :
  (i < length U)%nat -> U !! i = Some (nth i U []).
Proof.
  intros Hi. rewrite nth_lookup.
  by destruct (lookup_lt_is_Some_2 U i Hi) as [row ->].
Qed.

Lemma mset_length (U : list (list float)) i j v : length (mset U i j v) = length U.
Proof. unfold mset. apply length_insert. Qed.

Lemma mset_row (U : list (list float)) i j v :
  (i < length U)%nat -> nth i (mset U i j v) [] = <[j := v]> (nth i U []).
Proof.
  intros Hi. unfold mset. rewrite nth_lookup.
  by rewrite list_lookup_insert_eq.
Qed.

Lemma mset_shaped n m (U : list (list float)) i j v :
  shaped n m U -> shaped n m (mset U i j v).
Proof.
  intros [Hlen Hrows]. split; [by rewrite mset_length|].
  unfold mset. destruct (decide (i < length U)%nat) as [Hi|Hi].
  - apply Forall_insert; [done|]. rewrite length_insert.
    rewrite Forall_lookup in Hrows. by apply (Hrows i), nth_row.
  - by rewrite list_insert_ge by lia.
Qed.

Lemma shaped_row n m (U : list (list float)) i :
  shaped n m U -> (i < n)%nat -> length (nth i U []) = m.
Proof.
  intros [Hlen Hrows] Hi. rewrite Forall_lookup in Hrows.
  apply (Hrows i), nth_row. lia.
Qed.

Lemma mget_mset_eq n m (U : list (list float)) i j v :
  shaped n m U -> (i < n)%nat -> (j < m)%nat -> mget (mset U i j v) i j = v.
Proof.
  intros HU Hi Hj. unfold mget. rewrite mset_row by (destruct HU; lia).
  apply CppFacts.vget_insert_eq. by rewrite (shaped_row n m).
Qed.

Lemma mget_mset_ne (U : list (list float)) i j v r c :
  r <> i \/ c <> j -> mget (mset U i j v) r c = mget U r c.
Proof.
  intros Hne. unfold mget.
  destruct (decide (r = i)) as [->|Hr].
  - destruct Hne as [?|Hc]; [done|].
    destruct (decide (i < length U)%nat) as [Hi|Hi].
    + rewrite mset_row by done. by apply CppFacts.vget_insert_ne.
    + unfold mset. by rewrite list_insert_ge by lia.
  - by rewrite CppFacts.row_mset_other.
Qed.

(** A loop that writes the entries [(j, k)], [k] in [ks], of one row. *)
Lemma row_loop_shaped n m j (g : list (list float) -> nat -> float) ks U :
  shaped n m U ->
  shaped n m (fold_left (fun U k => mset U j k (g U k)) ks U).
Proof.
  revert U. induction ks as [|k ks IH]; intros U HU; [done|].
  cbn [fold_left]. by apply IH, mset_shaped.
Qed.

Lemma row_loop_other j (g : list (list float) -> nat -> float) ks U r c :
  r <> j \/ c ∉ ks ->
  mget (fold_left (fun U k => mset U j k (g U k)) ks U) r c = mget U r c.
Proof.
  revert U. induction ks as [|k ks IH]; intros U Hne; [done|].
  cbn [fold_left].
  assert (Hk : r <> j \/ c <> k).
  { destruct Hne as [?|Hc]; [by left|right]. intros ->. apply Hc. by left. }
  assert (Hks : r <> j \/ c ∉ ks).
  { destruct Hne as [?|Hc]; [by left|right]. intros Hin. apply Hc. by right. }
  rewrite IH by done. by apply mget_mset_ne.
Qed.

(** *** Copying the input *)

Lemma row_loop_const (U : list (list float)) i (f : nat -> float) js :
  (i < length U)%nat ->
  fold_left (fun U j => mset U i j (f j)) js U
  = <[i := fold_left (fun row j => <[j := f j]> row) js (nth i U [])]> U.
Proof.
  revert U. induction js as [|j js IH]; intros U Hi.
  - cbn [fold_left]. symmetry. by apply list_insert_id, nth_row.
  - cbn [fold_left]. rewrite IH by (by rewrite mset_length).
    rewrite mset_row by done. unfold mset. by rewrite list_insert_insert_eq.
Qed.

Lemma copy_step n A b (U : list (list float)) i :
  (i < length U)%nat ->
  mset (for_loop 0 n (fun U j => mset U i j (mget A i j))
          (<[i := replicate (n + 1) 0%float]> U)) i n (vget b i)
  = <[i := input_row n A b i]> U.
Proof.
  intros Hi. unfold for_loop. rewrite Nat.sub_0_r.
  rewrite row_loop_const by (by rewrite length_insert).
  rewrite nth_lookup, list_lookup_insert_eq by done. cbn [default]; unfold id.
  rewrite fill_prefix by (rewrite length_replicate; lia).
  rewrite list_insert_insert_eq. unfold mset.
  rewrite nth_lookup, list_lookup_insert_eq by done. cbn [default]; unfold id.
  rewrite list_insert_insert_eq. f_equal. unfold input_row.
  rewrite insert_app_r_alt by (rewrite length_map, length_seq; lia).
  rewrite length_map, length_seq, Nat.sub_diag.
  rewrite drop_replicate. replace (n + 1 - n)%nat with 1%nat by lia. reflexivity.
Qed.

Lemma copy_input_rows n A b :
  copy_input n A b = map (input_row n A b) (seq 0 n).
Proof.
  unfold copy_input. unfold for_loop at 1. rewrite Nat.sub_0_r.
  transitivity (fold_left (fun U i => <[i := input_row n A b i]> U) (seq 0 n)
                  (replicate n ([] : list float))).
  - assert (Hlen : length (replicate n ([] : list float)) = n)
      by apply length_replicate.
    revert Hlen. generalize (replicate n ([] : list float)) as U.
    assert (Hin : Forall (fun i => i < n)%nat (seq 0 n)).
    { apply Forall_forall. intros i Hi%list_elem_of_In%in_seq. lia. }
    induction Hin as [|i is' Hi _ IH]; intros U Hlen; [reflexivity|].
    cbn [fold_left]. rewrite copy_step by lia. apply IH. by rewrite length_insert.
  - rewrite fill_prefix by (rewrite length_replicate; lia).
    by rewrite drop_replicate, Nat.sub_diag, app_nil_r.
Qed.

Lemma copy_input_shaped n A b : shaped n (n + 1) (copy_input n A b).
Proof.
  rewrite copy_input_rows. split.
  - by rewrite length_map, length_seq.
  - apply Forall_forall. intros row (i & -> & _)%list_elem_of_fmap.
    unfold input_row. rewrite length_app, length_map, length_seq. reflexivity.
Qed.

(** *** The row reduction *)

Lemma eliminate_rows n U i :
  eliminate n U i = fold_left (reduce_row n i) (seq (i + 1) (n - (i + 1))) U.
Proof. reflexivity. Qed.

Lemma reduce_row_shaped n m i U j : shaped n m U -> shaped n m (reduce_row n i U j).
Proof.
  intros HU. unfold reduce_row, for_loop. cbv zeta.
  apply (row_loop_shaped n m j
    (fun U' k => PrimFloat.sub (mget U' j k)
       (PrimFloat.mul (PrimFloat.div (mget U j i) (mget U i i)) (mget U' i k)))).
  by apply mset_shaped.
Qed.

Lemma reduce_row_other n i U j r c :
  r <> j \/ (c < i)%nat -> mget (reduce_row n i U j) r c = mget U r c.
Proof.
  intros Hne. unfold reduce_row, for_loop. cbv zeta.
  rewrite (row_loop_other j
    (fun U' k => PrimFloat.sub (mget U' j k)
       (PrimFloat.mul (PrimFloat.div (mget U j i) (mget U i i)) (mget U' i k)))).
  - apply mget_mset_ne. destruct Hne; [by left|right; lia].
  - destruct Hne as [?|Hc]; [by left|right].
    intros Hin%list_elem_of_In%in_seq. lia.
Qed.

Lemma reduce_row_zero n m i U j :
  shaped n m U -> (j < n)%nat -> (i < m)%nat -> mget (reduce_row n i U j) j i = 0%float.
Proof.
  intros HU Hj Hi. unfold reduce_row, for_loop. cbv zeta.
  rewrite (row_loop_other j
    (fun U' k => PrimFloat.sub (mget U' j k)
       (PrimFloat.mul (PrimFloat.div (mget U j i) (mget U i i)) (mget U' i k)))).
  - by apply (mget_mset_eq n m).
  - right. intros Hin%list_elem_of_In%in_seq. lia.
Qed.

Lemma reduce_rows_shaped n m i js U :
  shaped n m U -> shaped n m (fold_left (reduce_row n i) js U).
Proof.
  revert U. induction js as [|j js IH]; intros U HU; [done|].
  cbn [fold_left]. by apply IH, reduce_row_shaped.
Qed.

Lemma reduce_rows_other n i js U r c :
  r ∉ js \/ (c < i)%nat -> mget (fold_left (reduce_row n i) js U) r c = mget U r c.
Proof.
  revert U. induction js as [|j js IH]; intros U Hne; [done|].
  cbn [fold_left]. rewrite IH.
  - apply reduce_row_other. destruct Hne as [Hr|?]; [left|by right].
    intros ->. apply Hr. by left.
  - destruct Hne as [Hr|?]; [left|by right]. intros Hin. apply Hr. by right.
Qed.

Lemma reduce_rows_zero n m i js U r :
  shaped n m U -> (i < m)%nat -> Forall (fun j => j < n)%nat js -> NoDup js -> r ∈ js ->
  mget (fold_left (reduce_row n i) js U) r i = 0%float.
Proof.
  intros HU Hi Hjs. revert U HU.
  induction Hjs as [|j js Hj _ IH]; intros U HU Hnd Hr.
  - by apply elem_of_nil in Hr.
  - apply NoDup_cons in Hnd as [Hfresh Hnd]. cbn [fold_left].
    apply elem_of_cons in Hr as [->|Hr].
    + rewrite reduce_rows_other by (by left). by apply (reduce_row_zero n m).
    + apply IH; [by apply reduce_row_shaped|done|done].
Qed.

Lemma eliminate_shaped n m U i : shaped n m U -> shaped n m (eliminate n U i).
Proof. rewrite eliminate_rows. apply reduce_rows_shaped. Qed.

(** The elimination with the pivot row [i] leaves the columns before [i]
    as they are. *)
Lemma eliminate_columns_before n U i r c :
  (c < i)%nat -> mget (eliminate n U i) r c = mget U r c.
Proof. intros Hc. rewrite eliminate_rows. apply reduce_rows_other. by right. Qed.

(** It clears column [i] in every row below the pivot row. *)
Lemma eliminate_clears n U i r :
  shaped n (n + 1) U -> (i < r < n)%nat -> mget (eliminate n U i) r i = 0%float.
Proof.
  intros HU Hr. rewrite eliminate_rows. apply (reduce_rows_zero n (n + 1)).
  - done.
  - lia.
  - apply Forall_forall. intros j Hj%list_elem_of_In%in_seq. lia.
  - apply NoDup_seq.
  - apply list_elem_of_In, in_seq. lia.
Qed.

Lemma eliminated_prefix n U m :
  shaped n (n + 1) U ->
  shaped n (n + 1) (for_loop 0 m (eliminate n) U) /\
  forall r c, (c < m)%nat -> (c < r < n)%nat ->
    mget (for_loop 0 m (eliminate n) U) r c = 0%float.
Proof.
  intros HU. unfold for_loop. rewrite Nat.sub_0_r.
  induction m as [|m [IHs IHz]]; [split; [done|lia]|].
  rewrite seq_S, fold_left_app. cbn [fold_left Nat.add]. split.
  - by apply eliminate_shaped.
  - intros r c Hc Hr. destruct (decide (c = m)) as [->|Hne].
    + by apply eliminate_clears.
    + rewrite eliminate_columns_before by lia. apply IHz; lia.
Qed.

(** *** The back-substitution *)

Section Solve.
Variables (n : nat) (U : list (list float)).

Lemma row_sum_ext i (js : list nat) x y s :
  Forall (fun j => vget x j = vget y j) js ->
  fold_left (fun s j => PrimFloat.sub s (PrimFloat.mul (mget U i j) (vget x j))) js s
  = fold_left (fun s j => PrimFloat.sub s (PrimFloat.mul (mget U i j) (vget y j))) js s.
Proof.
  intros Hxy. revert s.
  induction Hxy as [|j js Hj _ IH]; intros s; [reflexivity|].
  cbn [fold_left]. rewrite Hj. apply IH.
Qed.

Lemma inner_loop_value i (js : list nat) x :
  i ∉ js -> (i < length x)%nat ->
  vget (fold_left (fun x j =>
          <[i := PrimFloat.sub (vget x i) (PrimFloat.mul (mget U i j) (vget x j))]> x)
          js x) i
  = fold_left (fun s j => PrimFloat.sub s (PrimFloat.mul (mget U i j) (vget x j)))
      js (vget x i).
Proof.
  intros Hi. revert x.
  induction js as [|j js IH]; intros x Hlen; [reflexivity|].
  apply not_elem_of_cons in Hi as [Hne Hi]. cbn [fold_left].
  rewrite IH by (by rewrite ?length_insert).
  rewrite CppFacts.vget_insert_eq by done.
  apply row_sum_ext, Forall_forall. intros k Hk.
  apply CppFacts.vget_insert_ne. by intros ->.
Qed.

Lemma solve_row_value x i :
  (i < length x)%nat -> vget (solve_row n U x i) i = row_solution n U x i.
Proof.
  intros Hi. unfold solve_row, row_solution, for_loop.
  rewrite CppFacts.vget_insert_eq
    by (by rewrite CppFacts.inner_loop_length, length_insert).
  f_equal. rewrite inner_loop_value.
  - rewrite CppFacts.vget_insert_eq by done.
    apply row_sum_ext, Forall_forall. intros j Hj%list_elem_of_In%in_seq.
    apply CppFacts.vget_insert_ne. lia.
  - intros Hin%list_elem_of_In%in_seq. lia.
  - by rewrite length_insert.
Qed.

Lemma row_solution_ext x y i :
  (forall j, (i < j < n)%nat -> vget x j = vget y j) ->
  row_solution n U x i = row_solution n U y i.
Proof.
  intros Hxy. unfold row_solution, for_loop. f_equal.
  apply row_sum_ext, Forall_forall. intros j Hj%list_elem_of_In%in_seq.
  apply Hxy. lia.
Qed.

(** After the rows [n-1], ..., [lo] each of them holds its equation. *)
Lemma solved_rows (len lo : nat) x :
  (lo + len = n)%nat -> (n <= length x)%nat ->
  forall i, (lo <= i < n)%nat ->
    vget (fold_left (solve_row n U) (reverse (seq lo len)) x) i
    = row_solution n U (fold_left (solve_row n U) (reverse (seq lo len)) x) i.
Proof.
  revert lo. induction len as [|len IH]; intros lo Hn Hlen i Hi; [lia|].
  cbn [seq]. rewrite reverse_cons, fold_left_app. cbn [fold_left].
  set (x' := fold_left (solve_row n U) (reverse (seq (S lo) len)) x) in *.
  assert (Hlen' : length x' = length x) by apply CppFacts.solve_rows_length.
  destruct (decide (i = lo)) as [->|Hne].
  - rewrite solve_row_value by lia. apply row_solution_ext.
    intros j Hj. symmetry. apply CppFacts.solve_row_other. lia.
  - rewrite CppFacts.solve_row_other by lia.
    rewrite (IH (S lo)) by lia. fold x'. apply row_solution_ext.
    intros j Hj. symmetry. apply CppFacts.solve_row_other. lia.
Qed.

(** Two buffers give the same entries below [n]. *)
Lemma solved_rows_agree (len lo : nat) x y :
  (lo + len = n)%nat -> (n <= length x)%nat -> (n <= length y)%nat ->
  forall i, (lo <= i < n)%nat ->
    vget (fold_left (solve_row n U) (reverse (seq lo len)) x) i
    = vget (fold_left (solve_row n U) (reverse (seq lo len)) y) i.
Proof.
  revert lo. induction len as [|len IH]; intros lo Hn Hx Hy i Hi; [lia|].
  cbn [seq]. rewrite reverse_cons, !fold_left_app. cbn [fold_left].
  set (x' := fold_left (solve_row n U) (reverse (seq (S lo) len)) x) in *.
  set (y' := fold_left (solve_row n U) (reverse (seq (S lo) len)) y) in *.
  assert (Hx' : length x' = length x) by apply CppFacts.solve_rows_length.
  assert (Hy' : length y' = length y) by apply CppFacts.solve_rows_length.
  destruct (decide (i = lo)) as [->|Hne].
  - rewrite !solve_row_value by lia. apply row_solution_ext.
    intros j Hj. apply IH; lia.
  - rewrite !CppFacts.solve_row_other by lia. apply IH; lia.
Qed.

End Solve.

(** *** The error *)

Lemma abs_above_nonneg e s :
  PrimFloat.ltb e (PrimFloat.abs s) = true ->
  PrimFloat.leb 0%float (PrimFloat.abs s) = true.
Proof.
  rewrite FloatAxioms.ltb_spec, FloatAxioms.leb_spec, FloatAxioms.abs_spec.
  change (Prim2SF 0%float) with (S754_zero false).
  destruct (Prim2SF s) as [sg|sg| |sg m ex], (Prim2SF e) as [sg'|sg'| |sg' m' ex'];
    try destruct sg; try destruct sg'; cbn; congruence.
Qed.

Lemma max_error_rows n A b x :
  max_error n A b x
  = fold_left (fun error i =>
      if PrimFloat.ltb error (PrimFloat.abs (row_sum n A b x i))
      then PrimFloat.abs (row_sum n A b x i) else error) (seq 0 n) 0%float.
Proof. unfold max_error, row_sum, for_loop. by rewrite !Nat.sub_0_r. Qed.

Lemma row_sum_agree n A b x y i :
  (forall j, (j < n)%nat -> vget x j = vget y j) ->
  row_sum n A b x i = row_sum n A b y i.
Proof.
  intros Hxy. unfold row_sum, for_loop. rewrite Nat.sub_0_r.
  generalize (PrimFloat.opp (vget b i)) as s.
  assert (Hjs : Forall (fun j => j < n)%nat (seq 0 n)).
  { apply Forall_forall. intros j Hj%list_elem_of_In%in_seq. lia. }
  induction Hjs as [|j js Hj _ IH]; intros s; [reflexivity|].
  cbn [fold_left]. rewrite (Hxy j Hj). apply IH.
Qed.

Lemma max_error_agree n A b x y :
  (forall j, (j < n)%nat -> vget x j = vget y j) ->
  max_error n A b x = max_error n A b y.
Proof.
  intros Hxy. rewrite !max_error_rows.
  generalize 0%float as e. generalize (seq 0 n) as rows.
  induction rows as [|i rows IH]; intros e; [reflexivity|].
  cbn [fold_left]. rewrite (row_sum_agree n A b x y i Hxy). apply IH.
Qed.

Lemma vget_ext (x y : list float) :
  length x = length y -> (forall k, (k < length x)%nat -> vget x k = vget y k) -> x = y.
Proof.
  intros Hlen Hxy. apply (nth_ext _ _ 0%float 0%float); [done|]. apply Hxy.
Qed.

Lemma vget_drop (x : list float) n k : vget (drop n x) k = vget x (n + k).
Proof. unfold vget. rewrite !nth_lookup. by rewrite lookup_drop. Qed.

Lemma vget_take (x : list float) n k : (k < n)%nat -> vget (take n x) k = vget x k.
Proof. intros Hk. unfold vget. rewrite !nth_lookup. by rewrite lookup_take_lt. Qed.

End CppLoops.

(** ** What [gauss] computes *)


(** X1: the first loop of [gauss] builds the augmented matrix.  For an
    [n] x [n] matrix [A] and a vector [b] of [n] entries, row [i] of [U] is
    row [i] of [A] followed by [b[i]]: nothing else of the input is read and
    no entry is left at its initial zero. *)
Theorem copy_input_augments (n : nat) (A : list (list float)) (b : list float) :
  shaped n n A -> length b = n ->
  Cpp.copy_input n A b = zip_with (fun row v => row ++ [v]) A b.
Proof.
  intros [HA Hrows] Hb. rewrite CppLoops.copy_input_rows.
  apply list_eq. intros i. rewrite list_lookup_fmap, lookup_zip_with.
  destruct (decide (i < n)%nat) as [Hi|Hi].
  - rewrite lookup_seq_lt by done. cbn [fmap option_fmap option_map Nat.add].
    destruct (lookup_lt_is_Some_2 A i ltac:(lia)) as [row Hrow].
    destruct (lookup_lt_is_Some_2 b i ltac:(lia)) as [v Hv].
    rewrite Hrow, Hv. cbn. f_equal. unfold input_row, Cpp.mget, Cpp.vget.
    rewrite !nth_lookup, Hrow, Hv. cbn. f_equal.
    assert (Hlen : length row = n).
    { eapply (proj1 (Forall_forall _ _) Hrows), list_elem_of_lookup_2, Hrow. }
    apply list_eq. intros j. rewrite list_lookup_fmap.
    destruct (decide (j < n)%nat) as [Hj|Hj].
    + rewrite lookup_seq_lt by done. cbn.
      destruct (lookup_lt_is_Some_2 row j ltac:(lia)) as [w Hw].
      by rewrite Hw, (nth_lookup_Some _ _ _ _ Hw).
    + rewrite lookup_seq_ge by lia. by rewrite lookup_ge_None_2 by lia.
  - rewrite lookup_seq_ge by lia. rewrite (lookup_ge_None_2 A) by lia. reflexivity.
Qed.

(** X2: the row reduction leaves [U] upper triangular.  Every entry
    [U[i][j]] below the diagonal ([j < i < n]) is exactly [0] after the
    second loop, whatever the input: also when a pivot was zero and the
    multipliers were infinities or NaNs. *)
Theorem row_reduction_triangular (n : nat) (A : list (list float)) (b : list float)
    (i j : nat) :
  (j < i < n)%nat -> Cpp.mget (Cpp.reduced n A b) i j = 0%float.
Proof.
  intros Hij. unfold Cpp.reduced, Cpp.row_reduction.
  apply (CppLoops.eliminated_prefix n _ n (CppLoops.copy_input_shaped n A b)); lia.
Qed.

(** X3: the back-substitution solves the triangular system it is given.
    With [U] the reduced matrix and [x] as [gauss] leaves it, every [x[i]],
    [i < n], is [(U[i][n] - U[i][i+1]*x[i+1] - ... - U[i][n-1]*x[n-1]) / U[i][i]]
    in binary64, with the subtractions in the order of the loop: later
    rows do not disturb the rows done before. *)
Theorem back_substitution_solves (n : nat) (A : list (list float)) (b x : list float)
    (i : nat) :
  (n <= length x)%nat -> (i < n)%nat ->
  Cpp.vget (Cpp.gauss n A b x).1 i
  = row_solution n (Cpp.reduced n A b) (Cpp.gauss n A b x).1 i.
Proof.
  intros Hn Hi. unfold Cpp.gauss. cbv zeta. cbn [fst].
  fold (Cpp.reduced n A b). rewrite CppFacts.back_substitution_fold.
  apply (CppLoops.solved_rows n _ n 0); lia.
Qed.

(** X4: [gauss] writes [x[0]], ..., [x[n-1]] and nothing else.  A buffer
    of at least [n] entries keeps its length and every entry from index [n]
    on. *)
Theorem gauss_writes_first_n (n : nat) (A : list (list float)) (b x : list float) :
  (n <= length x)%nat ->
  length (Cpp.gauss n A b x).1 = length x /\
  drop n (Cpp.gauss n A b x).1 = drop n x.
Proof.
  intros Hn. unfold Cpp.gauss. cbv zeta. cbn [fst].
  rewrite CppFacts.back_substitution_fold.
  assert (Hlen := CppFacts.solve_rows_length n (Cpp.row_reduction n (Cpp.copy_input n A b))
                    (reverse (seq 0 n)) x).
  split; [done|]. apply CppLoops.vget_ext.
  - by rewrite !length_drop, Hlen.
  - intros k _. rewrite !CppLoops.vget_drop. apply CppFacts.solve_rows_other.
    intros Hin%elem_of_reverse%list_elem_of_In%in_seq. lia.
Qed.

(** X5: [x] is an output only.  What [gauss] leaves in [x[0..n-1]] and the
    error it returns do not depend on what the buffer held before the
    call. *)
Theorem gauss_ignores_buffer (n : nat) (A : list (list float)) (b x y : list float) :
  (n <= length x)%nat -> (n <= length y)%nat ->
  take n (Cpp.gauss n A b x).1 = take n (Cpp.gauss n A b y).1 /\
  (Cpp.gauss n A b x).2 = (Cpp.gauss n A b y).2.
Proof.
  intros Hx Hy. unfold Cpp.gauss. cbv zeta. cbn [fst snd].
  rewrite !CppFacts.back_substitution_fold.
  set (U := Cpp.row_reduction n (Cpp.copy_input n A b)).
  assert (Hxy : forall j, (j < n)%nat ->
            Cpp.vget (fold_left (Cpp.solve_row n U) (reverse (seq 0 n)) x) j
            = Cpp.vget (fold_left (Cpp.solve_row n U) (reverse (seq 0 n)) y) j).
  { intros j Hj. apply (CppLoops.solved_rows_agree n U n 0); lia. }
  split.
  - apply CppLoops.vget_ext.
    + rewrite !length_take, !CppFacts.solve_rows_length. lia.
    + intros k Hk. rewrite length_take, CppFacts.solve_rows_length in Hk.
      rewrite !CppLoops.vget_take by lia. apply Hxy. lia.
  - by apply CppLoops.max_error_agree.
Qed.

(** X6: the error [gauss] returns is never negative and never a NaN:
    [0 <= error] holds in binary64 for every input.  ([fabs(sum) > error]
    is false when [sum] is a NaN, so a row whose residual is a NaN leaves
    [error] as it is.) *)
Theorem gauss_error_nonnegative (n : nat) (A : list (list float)) (b x : list float) :
  PrimFloat.leb 0%float (Cpp.gauss n A b x).2 = true.
Proof.
  unfold Cpp.gauss. cbv zeta. cbn [snd].
  generalize (Cpp.back_substitution n (Cpp.row_reduction n (Cpp.copy_input n A b)) x).
  intros x'. rewrite CppLoops.max_error_rows.
  cut (forall rows e, PrimFloat.leb 0%float e = true ->
         PrimFloat.leb 0%float
           (fold_left (fun error i =>
              if PrimFloat.ltb error (PrimFloat.abs (row_sum n A b x' i))
              then PrimFloat.abs (row_sum n A b x' i) else error) rows e) = true).
  { intros Hall. by apply Hall. }
  induction rows as [|i rows IH]; intros e He; [exact He|].
  cbn [fold_left]. apply IH.
  destruct (PrimFloat.ltb e (PrimFloat.abs (row_sum n A b x' i))) eqn:Hlt; [|done].
  by apply (CppLoops.abs_above_nonneg e).
Qed.

Lemma copy_input_augments_witness :
  Cpp.copy_input 2 two_rows two_rhs
  = [[2%float; 1%float; 3%float]; [1%float; 3%float; 5%float]].
Proof.
  apply (copy_input_augments 2 two_rows two_rhs).
  - split; [reflexivity|]. by repeat constructor.
  - reflexivity.
Defined.

Lemma row_reduction_triangular_witness :
  Cpp.mget (Cpp.reduced 2 two_rows two_rhs) 1 0 = 0%float.
Proof. apply (row_reduction_triangular 2 two_rows two_rhs 1 0). lia. Defined.

Lemma back_substitution_solves_witness :
  Cpp.vget (Cpp.gauss 2 two_rows two_rhs [0%float; 0%float]).1 0
  = row_solution 2 (Cpp.reduced 2 two_rows two_rhs)
      (Cpp.gauss 2 two_rows two_rhs [0%float; 0%float]).1 0.
Proof.
  apply (back_substitution_solves 2 two_rows two_rhs [0%float; 0%float] 0).
  - simpl. lia.
  - lia.
Defined.

Lemma gauss_writes_first_n_witness :
  length (Cpp.gauss 2 two_rows two_rhs [0%float; 0%float; 7%float]).1 = 3%nat /\
  drop 2 (Cpp.gauss 2 two_rows two_rhs [0%float; 0%float; 7%float]).1 = [7%float].
Proof.
  apply (gauss_writes_first_n 2 two_rows two_rhs [0%float; 0%float; 7%float]).
  simpl. lia.
Defined.

Lemma gauss_ignores_buffer_witness :
  take 2 (Cpp.gauss 2 two_rows two_rhs [0%float; 0%float]).1
  = take 2 (Cpp.gauss 2 two_rows two_rhs [7%float; 7%float; 7%float]).1 /\
  (Cpp.gauss 2 two_rows two_rhs [0%float; 0%float]).2
  = (Cpp.gauss 2 two_rows two_rhs [7%float; 7%float; 7%float]).2.
Proof.
  apply (gauss_ignores_buffer 2 two_rows two_rhs [0%float; 0%float]
           [7%float; 7%float; 7%float]); simpl; lia.
Defined.

(** ** [gaussSimple] at the edges of its input *)

Section SolverEdges.
Context {F : Type} `{PyNum F}.

(** X7: [gaussSimple] never returns on an empty vector [b].  With an empty
    matrix both input assertions pass, the copies are made, and [max] of no
    rows raises [ValueError]; with any entry in [A] the first assertion
    fails, "Matrix A has wrong size", before anything is copied. *)
Theorem gaussSimple_empty_vector (h : gmap loc (obj F)) (a lb : loc) (A : gmap (Z * Z) F) :
  h !! a = Some (PyDict A) -> h !! lb = Some (PyList []) ->
  (A = ∅ -> gaussSimple a lb h = (inl ValueError, after_copies h A [])) /\
  (A <> ∅ -> gaussSimple a lb h = (inl (AssertionError WrongSize), h)).
Proof.
  intros Ha Hb. rewrite (gaussSimple_run h a lb A [] Ha Hb). cbv zeta.
  cbn [length]. change (Z.of_nat 0) with 0. rewrite Z.mul_0_l. split.
  - intros ->. rewrite map_size_empty. reflexivity.
  - intros Hne.
    assert (Hsize : size A <> 0%nat) by (by intros ?%map_size_empty_iff).
    destruct (Z.eqb_spec (Z.of_nat (size A)) 0) as [Heq|_]; [lia|reflexivity].
Qed.

Lemma dense_keys (A : gmap (Z * Z) F) n k :
  0 <= n -> dense A n -> is_Some (A !! k) -> k ∈ index_pairs (range n).
Proof.
  intros Hn [Hsize Hall] Hk.
  destruct (decide (k ∈ index_pairs (range n))) as [|Hout]; [done|exfalso].
  set (S := list_to_set (index_pairs (range n)) : gset (Z * Z)).
  assert (Hsub : S ∪ {[k]} ⊆ dom A).
  { intros [i j] [Hin%elem_of_list_to_set|Heq%elem_of_singleton]%elem_of_union.
    - apply in_index_pairs in Hin as [Hi Hj]. by apply elem_of_dom, Hall.
    - rewrite Heq. by apply elem_of_dom. }
  apply subseteq_size in Hsub. rewrite size_dom in Hsub.
  rewrite size_union in Hsub
    by (apply disjoint_singleton_r; by intros ?%elem_of_list_to_set).
  rewrite size_singleton in Hsub. unfold S in Hsub.
  rewrite size_list_to_set in Hsub
    by (apply NoDup_index_pairs, NoDup_seqZ).
  rewrite length_index_pairs in Hsub. unfold range in Hsub.
  rewrite length_seqZ in Hsub. nia.
Qed.

(** X9: the two input assertions together allow no other key.  A matrix
    with an entry under a key [(i, j)] outside [range(n) x range(n)],
    [n = len(b)], is always turned down by one of them, and the store is
    left as it was: it has too many entries, or too few of the expected
    ones. *)
Theorem gaussSimple_rejects_stray_key (h : gmap loc (obj F)) (a lb : loc)
    (A : gmap (Z * Z) F) (b : list F) (i j : Z) :
  h !! a = Some (PyDict A) -> h !! lb = Some (PyList b) ->
  is_Some (A !! (i, j)) ->
  ~ (0 <= i < Z.of_nat (length b) /\ 0 <= j < Z.of_nat (length b)) ->
  gaussSimple a lb h = (inl (AssertionError WrongSize), h) \/
  gaussSimple a lb h = (inl (AssertionError SparseMatrix), h).
Proof.
  intros Ha Hb Hk Hout. rewrite (gaussSimple_run h a lb A b Ha Hb). cbv zeta.
  set (n := Z.of_nat (length b)) in *.
  destruct (Z.eqb_spec (Z.of_nat (size A)) (n * n)) as [Hsize|Hsize]; cbn [negb];
    [|by left].
  destruct (forallb _ (index_pairs (range n))) eqn:Hall; cbn [negb]; [|by right].
  exfalso. apply Hout, in_index_pairs.
  apply (dense_keys A n); [unfold n; lia| |done]. split; [done|by apply all_present_dense].
Qed.

End SolverEdges.

Lemma gaussSimple_empty_vector_witness :
  gaussSimple 1%positive 2%positive empty_store
  = (inl ValueError, after_copies empty_store ∅ []).
Proof.
  exact (proj1 (gaussSimple_empty_vector empty_store 1%positive 2%positive ∅
                  eq_refl eq_refl) eq_refl).
Defined.

Lemma gaussSimple_rejects_stray_key_witness :
  gaussSimple 1%positive 2%positive stray_store
  = (inl (AssertionError WrongSize), stray_store) \/
  gaussSimple 1%positive 2%positive stray_store
  = (inl (AssertionError SparseMatrix), stray_store).
Proof.
  apply (gaussSimple_rejects_stray_key stray_store 1%positive 2%positive
           (<[(5, 5) := 1]> ∅) [0] 5 5 eq_refl eq_refl).
  - by exists 1.
  - simpl. lia.
Defined.

Section SolverAccepts.
Context {F : Type} `{NanOrder F}.

(** X8: as it stands, [gaussSimple] hands back a list exactly when [b]
    passes the residual test row by row as its own solution.  The list it
    returns holds [x] if and only if [x] is [b], [A] is dense of order
    [len(b) > 0], the residual of [b] in the first row is below the
    tolerance, and in every other row it is below the tolerance or
    unordered (a NaN, which [max] passes over); in every other case the
    call raises. *)
Theorem gaussSimple_returns_copy_of_b (h : gmap loc (obj F)) (a lb : loc)
    (A : gmap (Z * Z) F) (b x : list F) :
  h !! a = Some (PyDict A) -> h !! lb = Some (PyList b) ->
  let n := Z.of_nat (length b) in
  outcome (gaussSimple a lb h) = inr x <->
  x = b /\ 0 < n /\ dense A n /\
  lt_tol (residual A b b n 0) = true /\
  forall i, 0 <= i < n ->
    lt_tol (residual A b b n i) = true \/ unordered (residual A b b n i) = true.
Proof.
  intros Ha Hb n. rewrite (gaussSimple_outcome h a lb A b Ha Hb). cbv zeta.
  fold n.
  destruct (Z.eqb_spec (Z.of_nat (size A)) (n * n)) as [Hsize|Hsize]; cbn [negb].
  2:{ split; [done|]. intros (_ & _ & [? _] & _). done. }
  destruct (forallb _ (index_pairs (range n))) eqn:Hall; cbn [negb].
  2:{ split; [done|]. intros (_ & _ & [_ Hd] & _).
      apply all_present_dense in Hd. congruence. }
  assert (Hdense : dense A n) by (split; [done|by apply all_present_dense]).
  destruct (decide (0 < n)) as [Hn|Hn].
  2:{ assert (Hb0 : b = []) by (destruct b; [done|unfold n in Hn; simpl in Hn; lia]).
      subst b. cbn. split; [done|]. intros (_ & ? & _). lia. }
  destruct (pymax_nonempty _ (row_residuals_nonempty A b b _ Hn)) as [error Hmax].
  rewrite Hmax.
  destruct (checked_rows A b b n error Hn Hmax) as [Hrows _].
  destruct (lt_tol error) eqn:Hlt.
  - split.
    + intros [= <-]. by destruct (proj1 Hrows eq_refl).
    + by intros (-> & _).
  - split; [done|]. intros (_ & _ & _ & Hfirst & Hrest).
    pose proof (proj2 Hrows (conj Hfirst Hrest)). congruence.
Qed.

End SolverAccepts.

Lemma gaussSimple_returns_copy_of_b_witness :
  outcome (gaussSimple 1%positive 2%positive swap_store) = inr [1%float; 1%float] <->
  [1%float; 1%float] = [1%float; 1%float] /\ 0 < 2 /\ dense swap_dict 2 /\
  lt_tol (residual swap_dict [1%float; 1%float] [1%float; 1%float] 2 0) = true /\
  forall i, 0 <= i < 2 ->
    lt_tol (residual swap_dict [1%float; 1%float] [1%float; 1%float] 2 i) = true \/
    unordered (residual swap_dict [1%float; 1%float] [1%float; 1%float] 2 i) = true.
Proof.
  exact (gaussSimple_returns_copy_of_b swap_store 1%positive 2%positive swap_dict
           [1%float; 1%float] [1%float; 1%float] eq_refl eq_refl).
Defined.

(** ** The order of the draws *)

Lemma pairs_lookup (N1 N2 : list Z) (p q : nat) (x y : Z) :
  N1 !! p = Some x -> N2 !! q = Some y ->
  (N1 ≫= (fun i : Z => N2 ≫= (fun j : Z => [(i, j)]))) !! (p * length N2 + q)%nat = Some (x, y).
Proof.
  assert (Hrow : forall i : Z, length (N2 ≫= (fun j : Z => [(i, j)])) = length N2).
  { intros i. induction N2 as [|j N2 IH]; [reflexivity|].
    rewrite bind_cons. simpl. by rewrite IH. }
  revert p. induction N1 as [|i N1 IH]; intros p Hp Hq; [done|].
  rewrite bind_cons.
  destruct p as [|p].
  - injection Hp as ->. cbn [Nat.mul Nat.add].
    rewrite lookup_app_l by (rewrite Hrow; by eapply lookup_lt_Some).
    clear Hrow IH. revert q Hq.
    induction N2 as [|j N2 IH]; intros q Hq; [done|].
    rewrite bind_cons. destruct q as [|q]; [by injection Hq as ->|]. cbn. by apply IH.
  - rewrite lookup_app_r by (rewrite Hrow; lia).
    rewrite Hrow. replace (S p * length N2 + q - length N2)%nat
      with (p * length N2 + q)%nat by lia.
    by apply IH.
Qed.

Lemma index_pairs_lookup n i j :
  0 <= i < n -> 0 <= j < n ->
  index_pairs (range n) !! (Z.to_nat i * Z.to_nat n + Z.to_nat j)%nat = Some (i, j).
Proof.
  intros Hi Hj. unfold index_pairs.
  assert (Hlen : length (range n) = Z.to_nat n) by apply length_seqZ.
  rewrite <- Hlen at 1. apply pairs_lookup.
  - unfold range. rewrite lookup_seqZ. split; lia.
  - unfold range. rewrite lookup_seqZ. split; lia.
Qed.

Lemma py_dict_other (entries : list ((Z * Z) * float)) (d : matrix) k :
  k ∉ entries.*1 ->
  fold_left (fun d kv => <[kv.1 := kv.2]> d) entries d !! k = d !! k.
Proof.
  revert d. induction entries as [|[k' v'] entries IH]; intros d Hk; [done|].
  cbn in Hk. apply not_elem_of_cons in Hk as [Hne Hk]. cbn [fold_left fst snd].
  rewrite IH by done. by rewrite lookup_insert_ne.
Qed.

Lemma py_dict_lookup (entries : list ((Z * Z) * float)) k v :
  NoDup entries.*1 -> (k, v) ∈ entries -> py_dict entries !! k = Some v.
Proof.
  unfold py_dict. generalize (∅ : matrix) as d.
  induction entries as [|[k' v'] entries IH]; intros d Hnd Hin.
  - by apply elem_of_nil in Hin.
  - cbn in Hnd. apply NoDup_cons in Hnd as [Hfresh Hnd]. cbn [fold_left fst snd].
    apply elem_of_cons in Hin as [[= <- <-]|Hin].
    + rewrite py_dict_other by done. by rewrite lookup_insert_eq.
    + by apply IH.
Qed.

Section DrawOrder.
Context {rng : Type} (next_random : rng -> float * rng).
Implicit Types (w : world rng) (g : rng).

Lemma draw_app (p q : nat) g :
  draw next_random (p + q) g
  = ((draw next_random p g).1 ++ (draw next_random q (draw next_random p g).2).1,
     (draw next_random q (draw next_random p g).2).2).
Proof.
  revert g. induction p as [|p IH]; intros g.
  - cbn. by destruct (draw next_random q g).
  - cbn [Nat.add draw]. destruct (next_random g) as [v g1]. rewrite IH.
    destruct (draw next_random p g1) as [vs g2]. cbn.
    by destruct (draw next_random q g2).
Qed.

(** X10: [randProb(n)] draws exactly [n*n + n] values from the global
    generator, the matrix first and row by row: [A[i,j]] is draw number
    [i*n + j], [b[i]] is draw number [n*n + i], and the generator is left
    after the last of them.  The collector, the clock and the trace are
    as they were. *)
Theorem randProb_row_major (n : Z) w :
  0 < n ->
  let drawn := draw next_random (Z.to_nat (n * n + n)) (w_rng w) in
  exists A b,
    randProb next_random n w = (inr (A, b), set_rng drawn.2 w) /\
    (forall i j, 0 <= i < n -> 0 <= j < n ->
       A !! (i, j) = drawn.1 !! Z.to_nat (i * n + j)) /\
    (forall i, 0 <= i < n -> b !! Z.to_nat i = drawn.1 !! Z.to_nat (n * n + i)).
Proof.
  intros Hn drawn. rewrite (randProb_run next_random n w Hn).
  unfold generate. cbv zeta.
  assert (Hlen : length (range n) = Z.to_nat n) by apply length_seqZ.
  rewrite length_index_pairs, Hlen.
  assert (Hdrawn : drawn = draw next_random (Z.to_nat n * Z.to_nat n + Z.to_nat n)
                             (w_rng w)).
  { unfold drawn. f_equal. lia. }
  rewrite draw_app in Hdrawn. clearbody drawn. subst drawn.
  pose proof (length_draw next_random (Z.to_nat n * Z.to_nat n) (w_rng w)) as Hvs.
  destruct (draw next_random (Z.to_nat n * Z.to_nat n) (w_rng w)) as [vs g1].
  cbn [fst snd] in *.
  pose proof (length_draw next_random (Z.to_nat n) g1) as Hb.
  destruct (draw next_random (Z.to_nat n) g1) as [b g2].
  cbn [fst snd] in *.
  eexists _, _. split; [reflexivity|]. split.
  - intros i j Hi Hj.
    replace (Z.to_nat (i * n + j))
      with (Z.to_nat i * Z.to_nat n + Z.to_nat j)%nat by nia.
    rewrite lookup_app_l by nia.
    destruct (lookup_lt_is_Some_2 vs (Z.to_nat i * Z.to_nat n + Z.to_nat j)
                ltac:(nia)) as [v Hv].
    rewrite Hv. apply py_dict_lookup.
    + rewrite fst_zip by (rewrite length_index_pairs, Hlen; lia).
      apply NoDup_index_pairs, NoDup_seqZ.
    + apply (list_elem_of_lookup_2 _ (Z.to_nat i * Z.to_nat n + Z.to_nat j)%nat).
      rewrite lookup_zip_with, (index_pairs_lookup n i j Hi Hj), Hv. reflexivity.
  - intros i Hi.
    replace (Z.to_nat (n * n + i)) with (length vs + Z.to_nat i)%nat by nia.
    by rewrite lookup_app_r, Nat.add_sub' by lia.
Qed.

End DrawOrder.

Lemma randProb_row_major_witness :
  exists A b,
    randProb lcg_next 2 fresh_world
    = (inr (A, b), set_rng (draw lcg_next 6 (w_rng fresh_world)).2 fresh_world) /\
    (forall i j, 0 <= i < 2 -> 0 <= j < 2 ->
       A !! (i, j) = (draw lcg_next 6 (w_rng fresh_world)).1 !! Z.to_nat (i * 2 + j)) /\
    (forall i, 0 <= i < 2 ->
       b !! Z.to_nat i = (draw lcg_next 6 (w_rng fresh_world)).1 !! Z.to_nat (2 * 2 + i)).
Proof. apply (randProb_row_major lcg_next 2 fresh_world). lia. Defined.

(** ** What is printed *)

Lemma fives_app {A} (ds l : list A) :
  length ds = 5%nat -> fives (ds ++ l) = ds :: fives l.
Proof.
  destruct ds as [|a [|b [|c [|d [|e [|f ds]]]]]]; try discriminate. reflexivity.
Qed.

Lemma fives_short {A} (ds : list A) : (length ds < 5)%nat -> fives ds = [].
Proof.
  destruct ds as [|a [|b [|c [|d [|e ds]]]]]; try reflexivity. cbn. lia.
Qed.

Lemma reports_app evs1 evs2 : reports (evs1 ++ evs2) = reports evs1 ++ reports evs2.
Proof. apply omap_app. Qed.

Lemma readings_app evs1 evs2 :
  readings (evs1 ++ evs2) = readings evs1 ++ readings evs2.
Proof. apply omap_app. Qed.

Section Reports.
Context {rng R : Type}.
Variable seed_state : Z -> rng.
Variable next_random : rng -> float * rng.
Variable process_time : nat -> float.
Variables mean stdev : list float -> float.
Variable method : matrix -> list float -> exn float + R.
Implicit Types (w : world rng) (g : rng).

Lemma rounds_spans n k g evs ds g' :
  rounds next_random method n k g evs ds g' ->
  reports evs = [] /\ length ds = k /\
  forall tail, spans (readings evs ++ tail) = ds ++ spans tail.
Proof.
  induction 1 as [g|k g t0 t1 evs ds g' _ _ (IHr & IHl & IHs)]; [done|].
  split; [exact IHr|]. split; [by cbn; rewrite IHl|].
  intros tail. cbn. by rewrite IHs.
Qed.

Lemma block_spans prev n g evs m g' :
  block next_random mean stdev method prev n g evs m g' ->
  exists ds, length ds = 5%nat /\ reports evs = [(mean ds, stdev ds)] /\
    forall tail, spans (readings evs ++ tail) = ds ++ spans tail.
Proof.
  intros [evs' ds g'' (Hr & Hl & Hs)%rounds_spans]. exists ds.
  split; [done|].
  change (reports (EvGcCollect :: ?l)) with (reports l).
  change (readings (EvGcCollect :: ?l)) with (readings l).
  rewrite reports_app, readings_app, Hr. cbn [reports readings omap app].
  rewrite app_nil_r. split; [done|exact Hs].
Qed.

Lemma sweep_reports maxSize prev n g evs :
  sweep next_random mean stdev method maxSize prev n g evs ->
  forall tail, spans tail = [] ->
    reports evs
    = map (fun ds => (mean ds, stdev ds)) (fives (spans (readings evs ++ tail))).
Proof.
  induction 1 as [prev n g Hgt|prev n g evs m g' rest Hle Hblock _ IH];
    intros tail Htail.
  - cbn. by rewrite Htail.
  - destruct (block_spans _ _ _ _ _ _ Hblock) as (ds & Hlen & Hrep & Hs).
    rewrite reports_app, readings_app, <- app_assoc.
    rewrite Hs, fives_app by done. rewrite Hrep. cbn [map app]. f_equal.
    by apply IH.
Qed.

Lemma failed_block_spans n g evs e :
  failed_block next_random method n g evs e ->
  reports evs = [] /\ fives (spans (readings evs)) = [].
Proof.
  intros [k evs' ds g' t0 e' Hk (Hr & Hl & Hs)%rounds_spans Hfail].
  change (reports (EvGcCollect :: ?l)) with (reports l).
  change (readings (EvGcCollect :: ?l)) with (readings l).
  rewrite reports_app, readings_app, Hr. split; [reflexivity|].
  rewrite Hs. cbn. rewrite app_nil_r. apply fives_short. lia.
Qed.

Lemma failed_sweep_reports maxSize prev n g evs e :
  failed_sweep next_random mean stdev method maxSize prev n g evs e ->
  reports evs = map (fun ds => (mean ds, stdev ds)) (fives (spans (readings evs))).
Proof.
  induction 1 as [prev n g evs e Hle Hblock
                 |prev n g evs m g' rest e Hle Hblock _ IH].
  - apply failed_block_spans in Hblock as [-> ->]. reflexivity.
  - destruct (block_spans _ _ _ _ _ _ Hblock) as (ds & Hlen & Hrep & Hs).
    rewrite reports_app, readings_app.
    rewrite Hs, fives_app by done. rewrite Hrep. cbn [map app]. f_equal.
    exact IH.
Qed.

(** X11: the statistics [speed] prints are those of the rounds it timed.
    In every run, complete or cut short by a failing call, the readings of
    the timer taken in pairs give the durations, and the [k]-th printed line
    shows [mean] and [stdev] of the [k]-th group of five durations; a size
    whose five rounds were not completed prints no line. *)
Theorem speed_reports_round_times (maxSize : Z) w :
  let res := speed seed_state next_random process_time mean stdev method maxSize w in
  exists evs, w_trace res.2 = w_trace w ++ evs /\
    reports evs = map (fun ds => (mean ds, stdev ds)) (fives (spans (readings evs))).
Proof.
  cbv zeta.
  destruct (speed_run seed_state next_random process_time mean stdev method maxSize w)
    as [evs Hrun].
  cbv zeta in Hrun.
  destruct (speed seed_state next_random process_time mean stdev method maxSize w).1
    as [e|[]].
  - destruct Hrun as (Hsweep & Htr & _).
    exists (EvSeed 123456 :: EvGcDisable :: evs). split; [exact Htr|].
    change (reports (EvSeed 123456 :: EvGcDisable :: evs)) with (reports evs).
    change (readings (EvSeed 123456 :: EvGcDisable :: evs)) with (readings evs).
    by apply (failed_sweep_reports maxSize 0%float 50%positive (seed_state 123456) evs e).
  - destruct Hrun as (Hsweep & Htr & _).
    exists (EvSeed 123456 :: EvGcDisable :: evs ++ [EvGcEnable]). split; [exact Htr|].
    change (reports (EvSeed 123456 :: EvGcDisable :: evs ++ [EvGcEnable]))
      with (reports (evs ++ [EvGcEnable])).
    change (readings (EvSeed 123456 :: EvGcDisable :: evs ++ [EvGcEnable]))
      with (readings (evs ++ [EvGcEnable])).
    rewrite reports_app, readings_app. cbn [reports omap]. rewrite app_nil_r.
    apply (sweep_reports maxSize 0%float 50%positive (seed_state 123456) evs Hsweep []).
    reflexivity.
Qed.

(** X12: below the first size nothing is measured.  For [maxSize < 50]
    [speed] returns without setting up an instance, reading the timer,
    calling the solver or printing a line; it still seeds the global
    generator with 123456 and leaves automatic collection enabled, also when
    it was disabled before the call. *)
Theorem speed_below_first_size (maxSize : Z) w :
  maxSize < 50 ->
  speed seed_state next_random process_time mean stdev method maxSize w
  = (inr tt, World (seed_state 123456) true (w_clock w)
               (w_trace w ++ [EvSeed 123456; EvGcDisable; EvGcEnable])).
Proof.
  intros Hlt. unfold speed.
  rewrite (speed_loop_step next_random process_time mean stdev method).
  destruct (decide (Z.pos 50 <= maxSize)) as [Hle|_]; [lia|].
  destruct w as [g gc c tr]. cbn.
  by rewrite <- !app_assoc.
Qed.

End Reports.

Lemma speed_below_first_size_witness :
  speed lcg_seed lcg_next ticking_clock float_mean float_stdev instant_solver 49
    (World 7 false 3%nat [EvGcCollect])
  = (inr tt, World (lcg_seed 123456) true 3%nat
               [EvGcCollect; EvSeed 123456; EvGcDisable; EvGcEnable]).
Proof.
  apply (speed_below_first_size lcg_seed lcg_next ticking_clock float_mean float_stdev
           instant_solver 49 (World 7 false 3%nat [EvGcCollect])).
  lia.
Defined.

(** ** Longer sweeps *)

Section Prefix.
Context {rng : Type} (seed_state : Z -> rng) (next_random : rng -> float * rng).

Lemma block_count_mono (m1 m2 : Z) :
  m1 <= m2 -> (block_count m1 <= block_count m2)%nat.
Proof.
  intros Hle. unfold block_count.
  destruct (Z.ltb_spec m1 50), (Z.ltb_spec m2 50); try lia.
  apply le_n_S, Z2Nat.inj_le; [apply Z.log2_nonneg..|].
  apply Z.log2_le_mono, Z.div_le_mono; lia.
Qed.

Lemma sweep_instances_prefix (c1 c2 : nat) (n : positive) (g : rng) :
  (c1 <= c2)%nat ->
  sweep_instances next_random c1 n g `prefix_of` sweep_instances next_random c2 n g.
Proof.
  revert c2 n g. induction c1 as [|c1 IH]; intros c2 n g Hle; [apply prefix_nil|].
  destruct c2 as [|c2]; [lia|]. cbn [sweep_instances].
  apply prefix_app, IH. lia.
Qed.

(** X13: a longer sweep only adds to a shorter one.  When two runs of
    [speed] return, the one with the larger [maxSize] hands its solver first
    the very instances the other run hands to its own, in the same order,
    whatever the solvers, the clocks and the worlds they start from: the
    data for a size does not depend on how far the sweep goes. *)
Theorem speed_longer_sweep_extends {R1 R2 : Type} (clock1 clock2 : nat -> float)
    (mean1 stdev1 mean2 stdev2 : list float -> float)
    (method1 : matrix -> list float -> exn float + R1)
    (method2 : matrix -> list float -> exn float + R2)
    (maxSize1 maxSize2 : Z) (w1 w2 : world rng) :
  maxSize1 <= maxSize2 ->
  let res1 := speed seed_state next_random clock1 mean1 stdev1 method1 maxSize1 w1 in
  let res2 := speed seed_state next_random clock2 mean2 stdev2 method2 maxSize2 w2 in
  res1.1 = inr tt -> res2.1 = inr tt ->
  exists evs1 evs2,
    w_trace res1.2 = w_trace w1 ++ evs1 /\
    w_trace res2.2 = w_trace w2 ++ evs2 /\
    calls evs1 `prefix_of` calls evs2.
Proof.
  intros Hle res1 res2 Hret1 Hret2.
  destruct (speed_instances seed_state next_random clock1 mean1 stdev1 method1
              maxSize1 w1 Hret1) as (evs1 & Htr1 & Hcalls1).
  destruct (speed_instances seed_state next_random clock2 mean2 stdev2 method2
              maxSize2 w2 Hret2) as (evs2 & Htr2 & Hcalls2).
  exists evs1, evs2. split; [exact Htr1|]. split; [exact Htr2|].
  rewrite Hcalls1, Hcalls2.
  destruct (sweep_instances_prefix (block_count maxSize1) (block_count maxSize2)
              50 (seed_state 123456) (block_count_mono _ _ Hle)) as [k ->].
  rewrite fmap_app. by apply prefix_app_r.
Qed.

End Prefix.

Lemma speed_longer_sweep_extends_witness :
  exists evs1 evs2,
    w_trace quick_run.2 = w_trace fresh_world ++ evs1 /\
    w_trace frozen_run.2 = w_trace fresh_world ++ evs2 /\
    calls evs1 `prefix_of` calls evs2.
Proof.
  apply (speed_longer_sweep_extends lcg_seed lcg_next ticking_clock frozen_clock
           float_mean float_stdev float_mean float_stdev instant_solver instant_solver
           50 100 fresh_world fresh_world).
  - lia.
  - vm_compute. reflexivity.
  - vm_compute. reflexivity.
Defined.

(** ** [gaussSimple] on generated instances *)

Lemma gaussSimple_method_dense (A : matrix) (b : list float) :
  dense A (Z.of_nat (length b)) -> 0 < Z.of_nat (length b) ->
  gaussSimple_method A b = inr b \/
  exists error, gaussSimple_method A b = inl (AssertionError (IncorrectSolution error)).
Proof.
  intros Hdense Hlen. unfold gaussSimple_method.
  set (h := <[2%positive := PyList b]> (<[1%positive := PyDict A]> ∅)
            : gmap loc (obj float)).
  assert (Ha : h !! 1%positive = Some (PyDict A)).
  { unfold h. rewrite lookup_insert_ne by done. apply lookup_insert_eq. }
  assert (Hb : h !! 2%positive = Some (PyList b)) by apply lookup_insert_eq.
  rewrite (gaussSimple_outcome h 1%positive 2%positive A b Ha Hb).
  cbv zeta. destruct (dense_checks _ _ Hdense) as [-> ->]. cbn [negb].
  destruct (pymax_nonempty _ (row_residuals_nonempty A b b _ Hlen)) as [error ->].
  destruct (lt_tol error); eauto.
Qed.

Section GeneratedInstances.
Context {rng : Type}.
Variable seed_state : Z -> rng.
Variable next_random : rng -> float * rng.
Variable process_time : nat -> float.
Variables mean stdev : list float -> float.
Implicit Types (w : world rng) (g : rng).

Lemma gaussSimple_method_generated (n : Z) g :
  0 < n ->
  gaussSimple_method (generate next_random n g).1.1 (generate next_random n g).1.2
  = inr (generate next_random n g).1.2 \/
  exists error,
    gaussSimple_method (generate next_random n g).1.1 (generate next_random n g).1.2
    = inl (AssertionError (IncorrectSolution error)).
Proof.
  intros Hn. destruct (generate_dense next_random n g ltac:(lia)) as [Hdense Hlen].
  apply gaussSimple_method_dense; rewrite Hlen; [done|lia].
Qed.

(** X14: the notebook's test call, [gaussSimple] on the pair that
    [randProb(n)] returns, always gets past the input checks.  For [n > 0] the instance [randProb] returns is
    accepted by both input assertions, every [A[i,j]] and [x[j]] the
    residual reads is there, and the call either returns a copy of [b] or
    raises the assertion "Incorrect solution": never a wrong-size or
    sparse-matrix assertion, a [KeyError], an [IndexError] or a
    [ValueError]. *)
Theorem gaussSimple_accepts_generated (n : Z) w :
  0 < n ->
  exists A b w',
    randProb next_random n w = (inr (A, b), w') /\
    (gaussSimple_method A b = inr b \/
     exists error,
       gaussSimple_method A b = inl (AssertionError (IncorrectSolution error))).
Proof.
  intros Hn. rewrite (randProb_run next_random n w Hn).
  pose proof (gaussSimple_method_generated n (w_rng w) Hn) as Hcall.
  destruct (generate next_random n (w_rng w)) as [[A b] g1].
  exists A, b, (set_rng g1 w). split; [reflexivity|exact Hcall].
Qed.

Lemma failed_sweep_instance {R} (method : matrix -> list float -> exn float + R)
    maxSize prev n g evs e :
  failed_sweep next_random mean stdev method maxSize prev n g evs e ->
  exists n' g', 0 < n' /\
    method (generate next_random n' g').1.1 (generate next_random n' g').1.2 = inl e.
Proof.
  induction 1 as [prev n g evs e Hle Hblock
                 |prev n g evs m g' rest e Hle Hblock _ IH]; [|exact IH].
  destruct Hblock as [k evs' ds g' t0 e' Hk Hrounds Hfail].
  exists (Z.pos n), g'. split; [lia|exact Hfail].
Qed.

(** X15: [speed(gaussSimple)] can only fail on the residual check.  When
    the run of the speed test on [gaussSimple] raises, the exception is
    the assertion "Incorrect solution: out by ..." of a call on a generated
    instance; the input assertions of [gaussSimple] never fail under
    [speed], whatever the seed function, the generator and the clock. *)
Theorem speed_gaussSimple_failure (maxSize : Z) w (e : exn float) :
  (speed seed_state next_random process_time mean stdev gaussSimple_method maxSize w).1
  = inl e ->
  exists error, e = AssertionError (IncorrectSolution error).
Proof.
  intros Hfail.
  destruct (speed_run seed_state next_random process_time mean stdev gaussSimple_method
              maxSize w) as [evs Hrun].
  cbv zeta in Hrun. rewrite Hfail in Hrun. destruct Hrun as (Hsweep & _).
  apply failed_sweep_instance in Hsweep as (n' & g' & Hn & Hcall).
  destruct (gaussSimple_method_generated n' g' Hn) as [Hret|[error Herr]].
  - congruence.
  - exists error. congruence.
Qed.

End GeneratedInstances.

Lemma gaussSimple_accepts_generated_witness :
  exists A b w',
    randProb lcg_next 2 fresh_world = (inr (A, b), w') /\
    (gaussSimple_method A b = inr b \/
     exists error,
       gaussSimple_method A b = inl (AssertionError (IncorrectSolution error))).
Proof. apply (gaussSimple_accepts_generated lcg_next 2 fresh_world). lia. Defined.

Lemma speed_gaussSimple_failure_witness :
  exists error,
    AssertionError (IncorrectSolution 0x1.d513c8p+3%float)
    = AssertionError (IncorrectSolution error).
Proof.
  apply (speed_gaussSimple_failure lcg_seed lcg_next ticking_clock float_mean
           float_stdev 400 fresh_world).
  vm_compute. reflexivity.
Defined.

(** ** The residual check *)



Section ResidualCheck.
Context {F : Type} `{NanOrder F}.


End ResidualCheck.


